(** * The random-data handler of [main.go]

    A shallow embedding of [Handler.ServeHTTP]: the resolution of the
    [size] and [buffer] query parameters, the acquisition of the byte
    source, and the buffered copy loop, together with the properties of
    the handler that its specification states.

    Conventions.
    - Go's [int] and [int64] are 64 bit two's complement integers, kept
      here as [Z] with the wrap-around written out ([Int.wrap]).
    - The handler talks to three collaborators: the logger, the file
      behind [os.Open("/dev/urandom")] and the [http.ResponseWriter].
      What they answer is given by an [env]; what the handler does to
      them is recorded in a [world] (the response and a chronological
      trace of events).
    - The copy loop need not terminate (a zero buffer size), so it is
      run with a bound on the number of times its guard is evaluated;
      [Div] is the answer of a run that would need more.
    - [make([]byte, n)] panics for [n < 0] and for [n] above the largest
      allocation of Go's runtime ([runtime.maxAlloc], 2^48 bytes on 64 bit
      Linux, where the program is deployed), as [runtime.makeslice] does.
      Up to that length the memory is taken to be there: running out of
      it is not a panic of the handler but the end of the process.
    - A log entry is recorded with its level and message; its fields are
      left out, and so is the clock ([time.Now], [time.Since]), whose
      only use is a field of the last log entry. *)

From Stdlib Require Import ZArith Lia Ascii String.
From Stdlib Require Import Init.Byte.
From stdpp Require Import base option list strings gmap.

Local Open Scope Z_scope.

(** ** Machine integers *)

Module Int.

Definition min_int64 : Z := - 2 ^ 63.
Definition max_int64 : Z := 2 ^ 63 - 1.
Definition max_uint64 : Z := 2 ^ 64 - 1.

(** Reduction of an integer to the signed 64 bit range. *)
Definition wrap (z : Z) : Z := (z + 2 ^ 63) mod 2 ^ 64 - 2 ^ 63.

(** Reduction of an integer to the unsigned 64 bit range. *)
Definition uwrap (z : Z) : Z := z mod 2 ^ 64.

Definition in_range (z : Z) : Prop := min_int64 <= z <= max_int64.

End Int.

(** ** [strconv.ParseInt(s, 10, 64)]

    The two functions of Go's [strconv] package that the handler relies
    on, for base 10 and a bit size of 64. A call answers a value and an
    optional error, as in Go. *)

Module strconv.

Inductive NumError := ErrSyntax | ErrRange.

(** The value of a decimal digit; any other byte has none (in base 10
    a letter is a digit that is too large and an underscore is not
    accepted). *)
Definition digit (c : ascii) : option Z :=
  let n := Z.of_N (N_of_ascii c) in
  if (48 <=? n) && (n <=? 57) then Some (n - 48) else None.

(** The smallest number such that [cutoff * 10 > max_uint64]. *)
Definition cutoff : Z := Int.max_uint64 / 10 + 1.

(** [for _, c := range []byte(s) { ... }] of [ParseUint], with [n] the
    number accumulated so far. *)
Fixpoint ParseUint_digits (s : string) (n : Z) : Z * option NumError :=
  match s with
  | EmptyString => (n, None)
  | String c rest =>
      match digit c with
      | None => (0, Some ErrSyntax)
      | Some d =>
          if cutoff <=? n then (Int.max_uint64, Some ErrRange)
          else
            let n10 := Int.uwrap (n * 10) in
            let n1 := Int.uwrap (n10 + d) in
            if (n1 <? n10) || (Int.max_uint64 <? n1)
            then (Int.max_uint64, Some ErrRange)
            else ParseUint_digits rest n1
      end
  end.

Definition ParseUint (s : string) : Z * option NumError :=
  match s with
  | EmptyString => (0, Some ErrSyntax)
  | _ => ParseUint_digits s 0
  end.

Definition ParseInt (s : string) : Z * option NumError :=
  match s with
  | EmptyString => (0, Some ErrSyntax)
  | String c0 rest =>
      (* Pick off leading sign. *)
      let '(neg, s1) :=
        if Ascii.eqb c0 "+" then (false, rest)
        else if Ascii.eqb c0 "-" then (true, rest)
        else (false, s) in
      (* Convert unsigned and check range. *)
      let '(un, err) := ParseUint s1 in
      match err with
      | Some ErrSyntax => (0, Some ErrSyntax)
      | _ =>
          let cutoff := 2 ^ 63 in
          if negb neg && (cutoff <=? un) then (cutoff - 1, Some ErrRange)
          else if neg && (cutoff <? un) then (- cutoff, Some ErrRange)
          else
            let n := Int.wrap un in
            (if neg then Int.wrap (- n) else n, None)
      end
  end.

(** What the specification calls a base-10 integer: an optional sign
    followed by one or more decimal digits. *)
Fixpoint all_digits (s : string) : bool :=
  match s with
  | EmptyString => true
  | String c rest =>
      match digit c with Some _ => all_digits rest | None => false end
  end.

Definition unsigned_decimal (s : string) : bool :=
  match s with EmptyString => false | _ => all_digits s end.

Definition decimal_integer (s : string) : bool :=
  match s with
  | EmptyString => false
  | String c0 rest =>
      if Ascii.eqb c0 "+" || Ascii.eqb c0 "-" then unsigned_decimal rest
      else unsigned_decimal s
  end.

End strconv.

(** ** Requests, responses and the collaborators of the handler *)

(** [url.Values] and [http.Header]: a key maps to the list of its values. *)
Abbreviation Values := (gmap string (list string)).

(** [func (v Values) Get(key string) string]: the first value of the key,
    or the empty string when there is none. *)
Definition Values_Get (v : Values) (key : string) : string :=
  match v !! key with
  | Some (x :: _) => x
  | _ => EmptyString
  end.

(** [func (h Header) Set(key, value string)]. *)
Definition Header_Set (h : Values) (key value : string) : Values :=
  <[key := [value]]> h.

(** The part of [*http.Request] that the handler reads; [Query] is the
    map that [r.URL.Query()] answers. *)
Record Request := mkRequest {
  Method : string;
  Path : string;
  Query : Values;
  Header : Values
}.

(** The [http.ResponseWriter]: the header map under construction, the
    status and header committed by the first [WriteHeader], and the body
    bytes accepted so far. *)
Record ResponseWriter := mkResponseWriter {
  rw_header : Values;
  rw_sent : option (Z * Values);
  rw_body : list byte
}.

Inductive level := Info | Error.

(** The events of a run, in the order in which they happen: the log
    entries, and the calls of [os.Open], of [Read] and [Close] on the
    data file and of [Write] on the response writer. A [Read] or [Write]
    event carries the number of bytes asked for, the number transferred
    and whether an error was reported. (Setting a header and writing the
    status are not events: their effect is kept in the
    [ResponseWriter].) [EvPending] is a ghost event: it is not a call,
    but records the value of [pendingSize] each time the guard of the
    copy loop is evaluated. *)
Inductive event :=
| EvLog (l : level) (msg : string)
| EvOpen (failed : bool)
| EvRead (want got : Z) (failed : bool)
| EvWrite (want got : Z) (failed : bool)
| EvClose (failed : bool)
| EvPending (pendingSize : Z).

(** The response under construction and the events so far. *)
Record world := mkWorld {
  rw : ResponseWriter;
  trace : list event
}.

(** What the operating system and the connection answer: whether
    [os.Open] fails, the bytes delivered and the error flag of the [k]-th
    [Read] call (from 0) for a request of [n] bytes, the number of bytes
    accepted and the error flag of the [k]-th [Write] call for [n] bytes,
    and whether [Close] fails. *)
Record env := mkEnv {
  open_fails : bool;
  read_reply : nat -> nat -> list byte * bool;
  write_reply : nat -> nat -> nat * bool;
  close_fails : bool
}.

Definition StatusOK : Z := 200.
Definition StatusBadRequest : Z := 400.
Definition StatusInternalServerError : Z := 500.

Definition reads_of (tr : list event) : list (Z * Z * bool) :=
  omap (fun ev => match ev with EvRead w g f => Some (w, g, f) | _ => None end) tr.

Definition writes_of (tr : list event) : list (Z * Z * bool) :=
  omap (fun ev => match ev with EvWrite w g f => Some (w, g, f) | _ => None end) tr.

Definition opens_of (tr : list event) : list bool :=
  omap (fun ev => match ev with EvOpen f => Some f | _ => None end) tr.

Definition closes_of (tr : list event) : list bool :=
  omap (fun ev => match ev with EvClose f => Some f | _ => None end) tr.

Definition pendings_of (tr : list event) : list Z :=
  omap (fun ev => match ev with EvPending p => Some p | _ => None end) tr.

Definition logs_of (tr : list event) : list (level * string) :=
  omap (fun ev => match ev with EvLog l m => Some (l, m) | _ => None end) tr.

(** ** A monad for the body of a Go function

    A computation transforms the world and either yields a value, leaves
    the function with [return], panics, or is cut off by the iteration
    bound. *)

Inductive res (A : Type) :=
| Val (a : A)
| Ret
| Pan
| Div.
Arguments Val {A} a.
Arguments Ret {A}.
Arguments Pan {A}.
Arguments Div {A}.

Definition M (A : Type) : Type := world -> res A * world.

Definition pure {A} (a : A) : M A := fun w => (Val a, w).

Definition bind {A B} (m : M A) (k : A -> M B) : M B :=
  fun w =>
    match m w with
    | (Val a, w') => k a w'
    | (Ret, w') => (Ret, w')
    | (Pan, w') => (Pan, w')
    | (Div, w') => (Div, w')
    end.

Definition return_ {A} : M A := fun w => (Ret, w).
Definition panic {A} : M A := fun w => (Pan, w).
Definition diverge {A} : M A := fun w => (Div, w).

Declare Scope go_scope.
Delimit Scope go_scope with go.
Notation "x <-- m ; k" := (bind m (fun x => k))
  (at level 20, m at level 100, k at level 200, only parsing) : go_scope.
Notation "' p <-- m ; k" := (bind m (fun x => let 'p := x in k))
  (at level 20, p pattern, m at level 100, k at level 200, only parsing) : go_scope.
Notation "m ;;; k" := (bind m (fun _ => k))
  (at level 100, k at level 200, right associativity, only parsing) : go_scope.

(** [defer f()] followed by the rest of the function: [f] runs when the
    rest returns or panics, and the way the function was left is kept. A
    run that never leaves the function never runs [f]. *)
Definition defer {A} (f : M unit) (rest : M A) : M A :=
  fun w =>
    match rest w with
    | (Div, w') => (Div, w')
    | (r, w') => (r, snd (f w'))
    end.

Definition emit (ev : event) : M unit :=
  fun w => (Val tt, mkWorld (rw w) (trace w ++ [ev])).

Definition modify_rw (f : ResponseWriter -> ResponseWriter) : M unit :=
  fun w => (Val tt, mkWorld (f (rw w)) (trace w)).

Definition get_trace : M (list event) := fun w => (Val (trace w), w).

(** *** The logger *)

Definition logger_Info (msg : string) : M unit := emit (EvLog Info msg).
Definition logger_Error (msg : string) : M unit := emit (EvLog Error msg).

(** *** The response writer *)

(** [w.Header().Set(key, value)]. *)
Definition w_Header_Set (key value : string) : M unit :=
  modify_rw (fun r => mkResponseWriter (Header_Set (rw_header r) key value)
                                       (rw_sent r) (rw_body r)).

(** [w.WriteHeader(code)]: the first call commits the status and the
    header map as it is then; a later call changes nothing. *)
Definition commit (code : Z) (r : ResponseWriter) : ResponseWriter :=
  match rw_sent r with
  | Some _ => r
  | None => mkResponseWriter (rw_header r) (Some (code, rw_header r)) (rw_body r)
  end.

Definition w_WriteHeader (code : Z) : M unit := modify_rw (commit code).

Definition append_body (p : list byte) (r : ResponseWriter) : ResponseWriter :=
  mkResponseWriter (rw_header r) (rw_sent r) (rw_body r ++ p).

(** The answer of the [k]-th [Write] call, for the bytes [p]: a write of
    no bytes is answered [(0, nil)] at once; otherwise the connection
    accepts a prefix of [p] and may report an error. *)
Definition write_outcome (e : env) (k : nat) (p : list byte) : nat * bool :=
  match p with
  | [] => (0%nat, false)
  | _ => let '(n, failed) := write_reply e k (length p) in
         (Nat.min n (length p), failed)
  end.

(** [w.Write(p)]. A first write without [WriteHeader] commits status
    200; the bytes accepted are added to the body. *)
Definition w_Write (e : env) (p : list byte) : M (Z * bool) :=
  (w_WriteHeader StatusOK ;;;
   tr <-- get_trace ;
   let '(n, failed) := write_outcome e (length (writes_of tr)) p in
   modify_rw (append_body (take n p)) ;;;
   emit (EvWrite (Z.of_nat (length p)) (Z.of_nat n) failed) ;;;
   pure (Z.of_nat n, failed))%go.

(** *** The data file *)

(** [os.Open("/dev/urandom")]: answers whether [err != nil]. *)
Definition os_Open (e : env) : M bool :=
  (emit (EvOpen (open_fails e)) ;;; pure (open_fails e))%go.

(** The answer of the [k]-th [Read] call into a slice of [len_b] bytes:
    the bytes placed at the front of the slice (their number is Go's [n])
    and whether [err != nil]. A read into an empty slice is answered
    [(0, nil)] at once; a read that delivers nothing without an error
    reports [io.EOF]. *)
Definition read_outcome (e : env) (k : nat) (len_b : nat) : list byte * bool :=
  match len_b with
  | O => ([], false)
  | _ => let '(data, failed) := read_reply e k len_b in
         let data := take len_b data in
         (data, match data with [] => true | _ => failed end)
  end.

(** [dataFile.Read(b)]. *)
Definition dataFile_Read (e : env) (len_b : nat) : M (list byte * bool) :=
  (tr <-- get_trace ;
   let '(data, failed) := read_outcome e (length (reads_of tr)) len_b in
   emit (EvRead (Z.of_nat len_b) (Z.of_nat (length data)) failed) ;;;
   pure (data, failed))%go.

(** [dataFile.Close()]: answers whether [err != nil]. *)
Definition dataFile_Close (e : env) : M bool :=
  (emit (EvClose (close_fails e)) ;;; pure (close_fails e))%go.

(** *** Slices of bytes *)

Module runtime.

(** The number of bits of a heap address and the largest allocation there
    is, [maxAlloc = 1 << heapAddrBits], of Go's runtime on 64 bit Linux. *)
Definition heapAddrBits : Z := 48.
Definition maxAlloc : Z := Z.shiftl 1 heapAddrBits.

End runtime.

(** [make([]byte, n)]: [runtime.makeslice] panics (len out of range) when
    [n] is negative or the [n] bytes are more than [maxAlloc]. *)
Definition make_bytes (n : Z) : M (list byte) :=
  if (n <? 0) || (runtime.maxAlloc <? n) then panic
  else pure (replicate (Z.to_nat n) x00).

(** The lengths that [make([]byte, n)] accepts. *)
Definition allocatable (n : Z) : Prop := 0 <= n <= runtime.maxAlloc.

(** [b[0:hi]], with its bounds check against the capacity of [b]. *)
Definition slice_to (b : list byte) (hi : Z) : M (list byte) :=
  if (hi <? 0) || (Z.of_nat (length b) <? hi) then panic
  else pure (take (Z.to_nat hi) b).

(** ** The handler *)

(** Default data and buffer sizes. *)
Definition defaultDataSize : Z := 1 * Z.shiftl 1 30.
Definition defaultBufferSize : Z := 32 * Z.shiftl 1 10.

(** The conversion [int(value)] of an [int64]. *)
Definition int_of_int64 (value : Z) : Z := Int.wrap value.

(** [len(b)] as an [int]. *)
Definition len (b : list byte) : Z := Z.of_nat (length b).

Section Handler.

Variable e : env.

(** One turn of the body of [for pendingSize > 0 { ... }], from the
    values of [pendingSize] and [dataBuffer] before it to their values
    after it. *)
Definition copy_chunk (bufferSize : Z) (st : Z * list byte) : M (Z * list byte) :=
  (let '(pendingSize, dataBuffer) := st in
   let readSize := if pendingSize >? bufferSize then bufferSize else pendingSize in
   readBuffer <-- slice_to dataBuffer readSize ;
   ' (data, failed) <-- dataFile_Read e (length readBuffer) ;
   let n := len data in
   let dataBuffer := data ++ drop (length data) dataBuffer in
   let readBuffer := data ++ drop (length data) readBuffer in
   if failed then
     logger_Error "Failed to read data" ;;; return_
   else if negb (n =? len readBuffer) then
     logger_Error "Unexpected read size" ;;; return_
   else
     ' (n, failed) <-- w_Write e readBuffer ;
     if failed then
       logger_Error "Failed to write data" ;;; return_
     else if negb (n =? len readBuffer) then
       logger_Error "Unexpected write size" ;;; return_
     else
       pure (Int.wrap (pendingSize - readSize), dataBuffer))%go.

(** [for pendingSize > 0 { ... }], the guard evaluated at most [fuel]
    times. It yields the values of [pendingSize] and [dataBuffer] with
    which the guard was found false. *)
Fixpoint copy_loop (fuel : nat) (bufferSize : Z) (st : Z * list byte)
  : M (Z * list byte) :=
  match fuel with
  | O => diverge
  | S fuel' =>
      (emit (EvPending (fst st)) ;;;
       if fst st >? 0 then
         st' <-- copy_chunk bufferSize st ; copy_loop fuel' bufferSize st'
       else pure st)%go
  end.

(** The text of a query parameter is parsed when it is not empty, and
    a parse failure ends the request with status 400; this is the code
    that [ServeHTTP] has twice, once for [size] and once for [buffer].
    [what] is the message logged on failure. *)
Definition resolve (r : Request) (key : string) (default : Z)
  (what : string) : M Z :=
  (let text := Values_Get (Query r) key in
   if negb (String.eqb text EmptyString) then
     let '(value, err) := strconv.ParseInt text in
     match err with
     | Some _ =>
         logger_Error what ;;;
         w_WriteHeader StatusBadRequest ;;;
         return_
     | None => pure (int_of_int64 value)
     end
   else pure default)%go.

Definition ServeHTTP (fuel : nat) (r : Request) : M unit :=
  (logger_Info "Received request" ;;;
   (* Get the response size: *)
   dataSize <-- resolve r "size" defaultDataSize
                  "Failed to parse response size query paramer" ;
   logger_Info "Response size" ;;;
   (* Get the buffer size: *)
   bufferSize <-- resolve r "buffer" defaultBufferSize
                    "Failed to parse buffer size query paramer" ;
   logger_Info "Buffer size" ;;;
   (* Open the file: *)
   failed <-- os_Open e ;
   if failed then
     logger_Error "Failed to open data file" ;;;
     w_WriteHeader StatusInternalServerError ;;;
     return_
   else
     defer
       (failed <-- dataFile_Close e ;
        if failed then logger_Error "Failed to close data file" else pure tt)
       ((* Send the data: *)
        w_Header_Set "Content-Type" "application/octet-stream" ;;;
        w_WriteHeader StatusOK ;;;
        dataBuffer <-- make_bytes bufferSize ;
        let pendingSize := dataSize in
        _ <-- copy_loop fuel bufferSize (pendingSize, dataBuffer) ;
        (* Write a summary to the log: *)
        logger_Info "Data sent"))%go.

End Handler.

(** ** Running the handler *)

Definition fresh : world := mkWorld (mkResponseWriter ∅ None []) [].

(** How a call of the handler ends: it returns (by falling off its end,
    [Completed], or by an early [return], [Aborted]), it panics, or it is
    still running when the iteration bound is reached. *)
Inductive ending := Completed | Aborted | Panicked | Running.

Definition ending_of {A} (r : res A) : ending :=
  match r with
  | Val _ => Completed
  | Ret => Aborted
  | Pan => Panicked
  | Div => Running
  end.

Definition serve (fuel : nat) (e : env) (r : Request) : ending * world :=
  let '(x, w) := ServeHTTP e fuel r fresh in (ending_of x, w).

Definition status (w : world) : option Z := fst <$> rw_sent (rw w).

Definition sent_header (w : world) (key : string) : option (list string) :=
  match rw_sent (rw w) with
  | Some (_, h) => h !! key
  | None => None
  end.

Definition body (w : world) : list byte := rw_body (rw w).

(** ** Query parameters *)

(** The value a query parameter resolves to: the default when [Get]
    answers the empty string, the parsed number when the text parses,
    and none when it does not. *)
Definition param (r : Request) (key : string) (default : Z) : option Z :=
  let text := Values_Get (Query r) key in
  if String.eqb text EmptyString then Some default
  else match strconv.ParseInt text with
       | (value, None) => Some (int_of_int64 value)
       | (_, Some _) => None
       end.

Definition size_of (r : Request) : option Z := param r "size" defaultDataSize.
Definition buffer_of (r : Request) : option Z := param r "buffer" defaultBufferSize.

(** * Vocabulary of the specification and of the proofs *)

(** ** Worlds *)

(** The world [w] after the events [evs], and after the bytes [p] have
    been added to the body. *)
Definition events (evs : list event) (w : world) : world :=
  mkWorld (rw w) (trace w ++ evs).

Definition sending (p : list byte) (w : world) : world :=
  mkWorld (append_body p (rw w)) (trace w).

(** ** The copy loop as a relation

    [chunk_outcome] lists the ways one turn of the loop body can go, for
    a chunk of [c] bytes: the read fails or is short; the read is in
    full and the write fails or is short; both are in full. [loop_run]
    is the loop built from such turns. Every execution of [copy_chunk]
    and [copy_loop] is one of these (lemmas [copy_chunk_cases] and
    [copy_loop_run]), so the properties of the loop are proved by
    induction on [loop_run]. *)

Inductive chunk_outcome (e : env) (p c : Z) (buf : list byte) (w : world)
  : res (Z * list byte) * world -> Prop :=
| chunk_read_bad data f msg :
    read_outcome e (length (reads_of (trace w))) (Z.to_nat c) = (data, f) ->
    f = true \/ len data <> c ->
    chunk_outcome e p c buf w
      (Ret, events [EvRead c (len data) f; EvLog Error msg] w)
| chunk_write_bad data got f msg :
    read_outcome e (length (reads_of (trace w))) (Z.to_nat c) = (data, false) ->
    len data = c ->
    write_outcome e (length (writes_of (trace w))) data = (got, f) ->
    (got <= length data)%nat ->
    f = true \/ Z.of_nat got <> c ->
    chunk_outcome e p c buf w
      (Ret, events [EvRead c c false; EvWrite c (Z.of_nat got) f; EvLog Error msg]
              (sending (take got data) w))
| chunk_copied data buf' :
    read_outcome e (length (reads_of (trace w))) (Z.to_nat c) = (data, false) ->
    len data = c ->
    write_outcome e (length (writes_of (trace w))) data = (length data, false) ->
    len buf' = len buf ->
    chunk_outcome e p c buf w
      (Val (p - c, buf'), events [EvRead c c false; EvWrite c c false] (sending data w)).

Inductive loop_run (e : env) (B : Z) : Z -> list byte -> world ->
  res (Z * list byte) * world -> Prop :=
| run_cut p buf w :
    loop_run e B p buf w (Div, w)
| run_done p buf w :
    p <= 0 ->
    loop_run e B p buf w (Val (p, buf), events [EvPending p] w)
| run_stop p buf w w' :
    0 < p ->
    chunk_outcome e p (Z.min p B) buf (events [EvPending p] w) (Ret, w') ->
    loop_run e B p buf w (Ret, w')
| run_next p buf w p' buf' w' out :
    0 < p ->
    chunk_outcome e p (Z.min p B) buf (events [EvPending p] w) (Val (p', buf'), w') ->
    loop_run e B p' buf' w' out ->
    loop_run e B p buf w out.

(** ** The worlds reached by the handler *)

(** The log entries written before the byte source is opened. *)
Definition prelude : list event :=
  [EvLog Info "Received request"; EvLog Info "Response size";
   EvLog Info "Buffer size"].

Definition octet_header : Values :=
  Header_Set ∅ "Content-Type" "application/octet-stream".

(** The world in which the copy loop starts. *)
Definition at_loop : world :=
  mkWorld (mkResponseWriter octet_header (Some (StatusOK, octet_header)) [])
          (prelude ++ [EvOpen false]).

(** What the deferred function adds to the trace. *)
Definition closing (e : env) : list event :=
  EvClose (close_fails e) ::
  (if close_fails e then [EvLog Error "Failed to close data file"] else []).

(** The world of a request refused with status [code] before anything
    else was done to the response. *)
Definition refused (code : Z) (tr : list event) : world :=
  mkWorld (mkResponseWriter ∅ (Some (code, ∅)) []) tr.

(** ** Reads, writes and counters *)

(** A read or write that transferred all the [c] bytes asked for,
    without an error. *)
Definition full (c : Z) : Z * Z * bool := (c, c, false).

(** A read or write that reported an error or transferred another number
    of bytes than asked for. *)
Definition bad (x : Z * Z * bool) : Prop :=
  let '(want, got, failed) := x in failed = true \/ got <> want.

(** The number of bytes transferred by a list of reads or writes. *)
Definition total (xs : list (Z * Z * bool)) : Z :=
  foldr (fun x acc => snd (fst x) + acc) 0 xs.


(** What the handler does once the loop is left: the summary is logged
    when the loop was left by its guard, and the deferred function closes
    the file unless the handler is still running. *)
Definition tail_events (e : env) (x : res (Z * list byte)) : list event :=
  match x with
  | Val _ => EvLog Info "Data sent" :: closing e
  | Div => []
  | _ => closing e
  end.

Definition finish (e : env) (out : res (Z * list byte) * world) : ending * world :=
  (ending_of (fst out),
   mkWorld (rw (snd out)) (trace (snd out) ++ tail_events e (fst out))).

(** ** Sample requests and environments *)

Definition request (q : Values) : Request := mkRequest "GET" "/" q ∅.

(** An environment in which everything succeeds: every read delivers the
    bytes asked for (all of them 42) and every write accepts them all. *)
Definition env_ok : env :=
  mkEnv false (fun _ n => (replicate n x2a, false)) (fun _ n => (n, false)) false.

(** An environment in which the byte source cannot be opened. *)
Definition env_no_source : env :=
  mkEnv true (fun _ n => (replicate n x2a, false)) (fun _ n => (n, false)) false.

(** An environment in which the third read fails, and one in which it
    delivers one byte less than asked for. *)
Definition env_read_error : env :=
  mkEnv false (fun k n => (replicate n x2a, Nat.eqb k 2)) (fun _ n => (n, false)) false.

Definition env_short_read : env :=
  mkEnv false (fun k n => (replicate (if Nat.eqb k 2 then n - 1 else n) x2a, false))
        (fun _ n => (n, false)) false.

(** One turn of the loop with a buffer of no bytes. *)
Definition idle_turn (p : Z) : list event :=
  [EvPending p; EvRead 0 0 false; EvWrite 0 0 false].

(** Every read delivers the bytes asked for and every write accepts the
    bytes given, without an error. *)
Definition reads_in_full (e : env) : Prop :=
  forall k n, snd (read_reply e k n) = false /\ length (fst (read_reply e k n)) = n.

Definition writes_in_full (e : env) : Prop :=
  forall k n, write_reply e k n = (n, false).

(** The chunk lengths that the specification announces for [size] bytes
    sent through a buffer of [B] bytes: [size / B] chunks of [B] bytes,
    followed by one of [size mod B] bytes when that is not 0. *)
Definition chunk_lengths (size B : Z) : list Z :=
  replicate (Z.to_nat (size / B)) B ++
  (if size mod B =? 0 then [] else [size mod B]).

(** Events among which every read and every write is in full, and there
    are as many writes as reads. *)
Definition clean (evs : list event) : Prop :=
  Forall (fun x => exists c, x = full c) (reads_of evs) /\
  Forall (fun x => exists c, x = full c) (writes_of evs) /\
  length (reads_of evs) = length (writes_of evs).

(** Clean events followed by a read that fails or is short and the log
    entry for it. *)
Definition read_abort (evs : list event) : Prop :=
  exists evs0 c got f msg,
    evs = evs0 ++ [EvRead c got f; EvLog Error msg] /\
    bad (c, got, f) /\ clean evs0.

(** Clean events followed by a read in full, a write that fails or is
    short and the log entry for it. *)
Definition write_abort (evs : list event) : Prop :=
  exists evs0 c got f msg,
    evs = evs0 ++ [EvRead c c false; EvWrite c got f; EvLog Error msg] /\
    bad (c, got, f) /\ clean evs0.

(** * Further vocabulary: the events of a run *)

(** The event lists that the copy loop can produce from a value [p] of
    [pendingSize], with the way the handler ends: the loop is cut off
    before a guard evaluation ([Running]), the guard is found false
    ([Completed]), a read or a write fails or is short ([Aborted]), or a
    chunk is copied and the loop goes on. *)
Inductive loop_events (B : Z) : Z -> ending -> list event -> Prop :=
| loop_cut p :
    loop_events B p Running []
| loop_left p :
    p <= 0 -> loop_events B p Completed [EvPending p]
| loop_read_failed p got f msg :
    0 < p -> 0 <= got <= Z.min p B -> bad (Z.min p B, got, f) ->
    loop_events B p Aborted
      [EvPending p; EvRead (Z.min p B) got f; EvLog Error msg]
| loop_write_failed p got f msg :
    0 < p -> 0 <= got <= Z.min p B -> bad (Z.min p B, got, f) ->
    loop_events B p Aborted
      [EvPending p; EvRead (Z.min p B) (Z.min p B) false;
       EvWrite (Z.min p B) got f; EvLog Error msg]
| loop_turn p x evs :
    0 < p -> loop_events B (p - Z.min p B) x evs ->
    loop_events B p x
      (EvPending p :: EvRead (Z.min p B) (Z.min p B) false
       :: EvWrite (Z.min p B) (Z.min p B) false :: evs).

(** What follows the loop, by the way the handler ends. *)
Definition ending_tail (e : env) (x : ending) : list event :=
  match x with
  | Completed => EvLog Info "Data sent" :: closing e
  | Running => []
  | _ => closing e
  end.

(** The calls on the data file and on the response body, in order:
    [true] for a [Read], [false] for a [Write]. *)
Definition io_of (tr : list event) : list bool :=
  omap (fun ev => match ev with
                  | EvRead _ _ _ => Some true
                  | EvWrite _ _ _ => Some false
                  | _ => None
                  end) tr.

(** An environment in which the third write fails after one byte. *)
Definition env_write_error : env :=
  mkEnv false (fun _ n => (replicate n x2a, false))
        (fun k n => if Nat.eqb k 2 then (1%nat, true) else (n, false)) false.

(** A proof step: the goal [x ∉ l] for an explicit list [l] none of
    whose elements can be [x]. *)
Ltac not_in_list :=
  let H := fresh in
  intros H; repeat (apply elem_of_cons in H as [H|H]; [discriminate H|]);
  by apply elem_of_nil in H.

(** ** The value of a decimal numeral *)

(** The number written by the leading decimal digits of [s], after the
    digits already accumulated in [acc]. *)
Fixpoint digits_value (s : string) (acc : Z) : Z :=
  match s with
  | EmptyString => acc
  | String c rest =>
      match strconv.digit c with
      | Some d => digits_value rest (acc * 10 + d)
      | None => acc
      end
  end.

(** The integer written by an optional sign followed by decimal digits. *)
Definition integer_value (s : string) : Z :=
  match s with
  | EmptyString => 0
  | String c0 rest =>
      if Ascii.eqb c0 "+" then digits_value rest 0
      else if Ascii.eqb c0 "-" then - digits_value rest 0
      else digits_value s 0
  end.

(** A text that is a base-10 integer within the range of [int64]. *)
Definition decimal_int64 (s : string) : bool :=
  strconv.decimal_integer s
  && (Int.min_int64 <=? integer_value s) && (integer_value s <=? Int.max_int64).

(** The bytes delivered by the successive reads of the chunks [cs], the
    first of them being the read number [k]. *)
Definition source_bytes (e : env) (k : nat) (cs : list Z) : list byte :=
  concat (imap (fun i c => fst (read_reply e (k + i) (Z.to_nat c))) cs).

(** An environment whose reads deliver bytes that tell the reads apart:
    the read number [k] delivers bytes of value [k]. *)
Definition env_counting : env :=
  mkEnv false
        (fun k n => (replicate n (match Byte.of_nat k with Some b => b | None => x00 end), false))
        (fun _ n => (n, false)) false.

(** * The entry point of the program

    [main] prepares the logger and the handler, writes the certificate
    and the key to files of a fresh temporary directory, and serves with
    them. It is modelled up to the call of [http.ListenAndServeTLS]; the
    requests that the listener then passes to the handler are the runs of
    [ServeHTTP] above. *)

(** Default listen address. *)
Definition defaultListenAddress : string := ":8443".

(** The two loggers that [main] writes to: [logger], made by
    [slog.New(slog.NewJSONHandler(os.Stdout, nil))], and the default
    logger behind the package-level [slog.Error]. *)
Inductive logger := JSONLogger | DefaultLogger.

(** The calls that [main] makes on the operating system and on the
    libraries, with their arguments and, for a call that can fail,
    whether it did: [os.MkdirTemp(dir, pattern)] with the name it
    answers, [os.WriteFile(name, data, perm)],
    [http.ListenAndServeTLS(addr, certFile, keyFile, handler)] and
    [os.Exit(code)]. *)
Inductive sys_call :=
| SysLog (via : logger) (l : level) (msg : string)
| SysMkdirTemp (dir pattern : string) (made : string) (failed : bool)
| SysWriteFile (name data : string) (perm : Z) (failed : bool)
| SysListenAndServeTLS (addr certFile keyFile : string)
| SysExit (code : Z).

(** What the operating system answers to [main]: the directory that
    [os.MkdirTemp] names and whether it fails, whether the [k]-th call of
    [os.WriteFile] (from 0) fails, and whether [ListenAndServeTLS] ever
    returns, and then whether with [err != nil]. *)
Record sys_env := mkSys {
  mkdir_temp : string * bool;
  write_file_fails : nat -> bool;
  listen_returns : option bool
}.

(** How [main] ends: by [os.Exit(code)], by returning, or never, the
    listener serving for ever. *)
Inductive main_ending := Exited (code : Z) | Returned | Serving.

Section Main.

(** [filepath.Join], and the texts of the constants [tlsCrt] and
    [tlsKey]; nothing in [main] depends on what they are. *)
Variable filepath_Join : string -> string -> string.
Variables tlsCrt tlsKey : string.

(** [main]; the permissions [0o600] of the two files are the number 384. *)
Definition main (o : sys_env) : main_ending * list sys_call :=
  (* Create temporary files for the TLS certificate and key: *)
  let '(tlsDir, failed) := mkdir_temp o in
  let tr := [SysMkdirTemp EmptyString ".tls" tlsDir failed] in
  if failed then
    (Exited 1,
     tr ++ [SysLog JSONLogger Error "Failed to create temporary TLS directory";
            SysExit 1])
  else
    let tlsCrtFile := filepath_Join tlsDir "tls.crt" in
    let failed := write_file_fails o 0 in
    let tr := tr ++ [SysWriteFile tlsCrtFile tlsCrt 384 failed] in
    if failed then
      (Exited 1,
       tr ++ [SysLog JSONLogger Error "Failed to create TLS certificate file";
              SysExit 1])
    else
      let tlsKeyFile := filepath_Join tlsDir "tls.key" in
      let failed := write_file_fails o 1 in
      let tr := tr ++ [SysWriteFile tlsKeyFile tlsKey 384 failed] in
      if failed then
        (Exited 1,
         tr ++ [SysLog JSONLogger Error "Failed to create TLS key file";
                SysExit 1])
      else
        (* Start the server: *)
        let tr := tr ++ [SysLog JSONLogger Info "Ready to listen and serve";
                         SysListenAndServeTLS defaultListenAddress
                           tlsCrtFile tlsKeyFile] in
        match listen_returns o with
        | None => (Serving, tr)
        | Some failed =>
            if failed then
              (Returned,
               tr ++ [SysLog DefaultLogger Error "Failed to listen and serve"])
            else (Returned, tr)
        end.

End Main.

(** A call that failed. *)
Definition call_failed (c : sys_call) : bool :=
  match c with
  | SysMkdirTemp _ _ _ failed => failed
  | SysWriteFile _ _ _ failed => failed
  | _ => false
  end.

(** The startup of [main] succeeds: the directory and both files are
    made. *)
Definition startup_ok (o : sys_env) : bool :=
  negb (snd (mkdir_temp o)) && negb (write_file_fails o 0)
  && negb (write_file_fails o 1).

(** [filepath.Join] for a directory name that is clean and not empty. *)
Definition join_clean (dir name : string) : string :=
  (dir ++ "/" ++ name)%string.

(** Sample answers of the operating system: everything works and the
    listener serves for ever; the listener cannot bind; the key file
    cannot be written. *)
Definition sys_ok : sys_env := mkSys ("/tmp/.tls1", false) (fun _ => false) None.
Definition sys_no_bind : sys_env :=
  mkSys ("/tmp/.tls1", false) (fun _ => false) (Some true).
Definition sys_no_key : sys_env :=
  mkSys ("/tmp/.tls1", false) (fun k => Nat.eqb k 1) None.

(** A proof step: the cases of a run of [main], by what the operating
    system answers. *)
Ltac main_cases o :=
  let dir := fresh "dir" in
  let f := fresh "f" in
  let wf := fresh "wf" in
  let lr := fresh "lr" in
  destruct o as [[dir f] wf lr];
  unfold main, startup_ok; cbn [mkdir_temp write_file_fails listen_returns fst snd];
  destruct f;
  [|destruct (wf 0%nat);
    [|destruct (wf 1%nat);
      [|destruct lr as [[|]|]]]];
  cbn [negb andb fst snd app].

(** * Properties *)

(** ** Sample runs *)

Example ParseInt_samples :
  strconv.ParseInt "123" = (123, None) /\
  strconv.ParseInt "+7" = (7, None) /\
  strconv.ParseInt "-9223372036854775808" = (-9223372036854775808, None) /\
  strconv.ParseInt "9223372036854775808"
    = (9223372036854775807, Some strconv.ErrRange) /\
  strconv.ParseInt "abc" = (0, Some strconv.ErrSyntax) /\
  strconv.ParseInt "1_000" = (0, Some strconv.ErrSyntax) /\
  strconv.ParseInt "-" = (0, Some strconv.ErrSyntax).
Proof. by vm_compute. Qed.

Example five_bytes_by_two :
  serve 4 env_ok (request {[ "size" := ["5"]; "buffer" := ["2"] ]}) =
  (Completed,
   mkWorld
     (mkResponseWriter octet_header (Some (StatusOK, octet_header))
        (replicate 5 x2a))
     [EvLog Info "Received request"; EvLog Info "Response size";
      EvLog Info "Buffer size"; EvOpen false;
      EvPending 5; EvRead 2 2 false; EvWrite 2 2 false;
      EvPending 3; EvRead 2 2 false; EvWrite 2 2 false;
      EvPending 1; EvRead 1 1 false; EvWrite 1 1 false;
      EvPending 0; EvLog Info "Data sent"; EvClose false]).
Proof. by vm_compute. Qed.

Example five_bytes_by_two_cut_off :
  fst (serve 3 env_ok (request {[ "size" := ["5"]; "buffer" := ["2"] ]}))
  = Running.
Proof. by vm_compute. Qed.

Example short_third_read :
  let out := serve 11 env_short_read
               (request {[ "size" := ["10"]; "buffer" := ["2"] ]}) in
  fst out = Aborted /\
  reads_of (trace (snd out)) = [full 2; full 2; (2, 1, false)] /\
  writes_of (trace (snd out)) = [full 2; full 2] /\
  last (logs_of (trace (snd out))) = Some (Error, "Unexpected read size") /\
  closes_of (trace (snd out)) = [false].
Proof. by vm_compute. Qed.

(** ** Machine integers *)

Lemma Int_wrap_small z : Int.in_range z -> Int.wrap z = z.
Proof.
  unfold Int.in_range, Int.wrap, Int.min_int64, Int.max_int64. intros Hz.
  rewrite Z.mod_small; lia.
Qed.

Lemma Int_wrap_in_range z : Int.in_range (Int.wrap z).
Proof.
  unfold Int.in_range, Int.wrap, Int.min_int64, Int.max_int64.
  pose proof (Z.mod_pos_bound (z + 2 ^ 63) (2 ^ 64)). lia.
Qed.

(** ** [strconv.ParseInt] *)

Lemma ParseUint_digits_inv s : forall n v err,
  0 <= n <= Int.max_uint64 ->
  strconv.ParseUint_digits s n = (v, err) ->
  match err with
  | None => 0 <= v <= Int.max_uint64 /\ strconv.all_digits s = true
  | Some strconv.ErrRange => v = Int.max_uint64
  | Some strconv.ErrSyntax => True
  end.
Proof.
  induction s as [|c rest IH]; intros n v err Hn; simpl.
  - intros [= <- <-]. auto.
  - destruct (strconv.digit c) as [d|]; [|intros [= <- <-]; exact I].
    destruct (strconv.cutoff <=? n); [intros [= <- <-]; reflexivity|].
    destruct (_ || _) eqn:Hov; [intros [= <- <-]; reflexivity|].
    apply orb_false_iff in Hov as [_ Hmax%Z.ltb_ge].
    intros Hrec. apply IH in Hrec; [exact Hrec|].
    split; [apply Z.mod_pos_bound; reflexivity | exact Hmax].
Qed.

Lemma ParseUint_inv s v err :
  strconv.ParseUint s = (v, err) ->
  match err with
  | None => 0 <= v <= Int.max_uint64 /\ strconv.unsigned_decimal s = true
  | Some strconv.ErrRange => v = Int.max_uint64
  | Some strconv.ErrSyntax => True
  end.
Proof.
  destruct s as [|c rest].
  - intros [= <- <-]. exact I.
  - unfold strconv.ParseUint, strconv.unsigned_decimal. intros H.
    apply ParseUint_digits_inv in H; [exact H | unfold Int.max_uint64; lia].
Qed.

Lemma ParseInt_inv s v :
  strconv.ParseInt s = (v, None) ->
  Int.in_range v /\ strconv.decimal_integer s = true.
Proof.
  destruct s as [|c0 rest]; [discriminate|].
  unfold strconv.ParseInt, strconv.decimal_integer.
  destruct (Ascii.eqb c0 "+") eqn:Hplus; [|destruct (Ascii.eqb c0 "-") eqn:Hminus];
    simpl orb; cbv iota.
  all: match goal with |- context [strconv.ParseUint ?t] =>
         destruct (strconv.ParseUint t) as [un err] eqn:Hun end.
  all: apply ParseUint_inv in Hun.
  all: destruct err as [[]|]; [discriminate| |].
  all: simpl andb; cbv iota.
  all: try (subst un; discriminate).
  all: match goal with |- context [if ?b then _ else _] => destruct b end;
       [discriminate|].
  all: intros [= <-]; split; [apply Int_wrap_in_range | apply Hun].
Qed.

Lemma ParseInt_empty : strconv.ParseInt EmptyString = (0, Some strconv.ErrSyntax).
Proof. reflexivity. Qed.

(** ** The monad and the collaborators *)

Lemma copy_chunk_unfold e B p buf w :
  copy_chunk e B (p, buf) w =
  let c := if p >? B then B else p in
  if (c <? 0) || (len buf <? c) then (Pan, w) else
  let rb := take (Z.to_nat c) buf in
  let rd := read_outcome e (length (reads_of (trace w))) (length rb) in
  let w1 := events [EvRead (len rb) (len (fst rd)) (snd rd)] w in
  let rb' := fst rd ++ drop (length (fst rd)) rb in
  if snd rd then (Ret, events [EvLog Error "Failed to read data"] w1)
  else if negb (len (fst rd) =? len rb')
  then (Ret, events [EvLog Error "Unexpected read size"] w1)
  else
    let wr := write_outcome e (length (writes_of (trace w1))) rb' in
    let w2 := events [EvWrite (len rb') (Z.of_nat (fst wr)) (snd wr)]
                (mkWorld (append_body (take (fst wr) rb') (commit StatusOK (rw w1)))
                         (trace w1)) in
    if snd wr then (Ret, events [EvLog Error "Failed to write data"] w2)
    else if negb (Z.of_nat (fst wr) =? len rb')
    then (Ret, events [EvLog Error "Unexpected write size"] w2)
    else (Val (Int.wrap (p - c), fst rd ++ drop (length (fst rd)) buf), w2).
Proof.
  unfold copy_chunk, slice_to, dataFile_Read, w_Write, bind.
  cbv zeta.
  destruct (_ || _); [reflexivity|].
  unfold pure at 1. unfold get_trace at 1.
  destruct (read_outcome _ _ _) as [data failed]. cbn [fst snd].
  unfold emit at 1, pure at 1.
  destruct failed; [reflexivity|].
  destruct (negb _); [reflexivity|].
  unfold w_WriteHeader, modify_rw at 1, get_trace, events; cbn [trace rw].
  destruct (write_outcome _ _ _) as [n wf]. cbn [fst snd].
  unfold modify_rw, emit, pure, logger_Error, emit, return_, len; cbn [trace rw].
  destruct wf; [reflexivity|].
  destruct (negb _); reflexivity.
Qed.

Lemma read_outcome_length e k n :
  (length (fst (read_outcome e k n)) <= n)%nat.
Proof.
  unfold read_outcome. destruct n as [|n]; [simpl; lia|].
  destruct (read_reply e k (S n)) as [data failed]. cbn [fst].
  rewrite length_take. lia.
Qed.

Lemma write_outcome_length e k p :
  (fst (write_outcome e k p) <= length p)%nat.
Proof.
  unfold write_outcome. destruct p as [|b p]; [simpl; lia|].
  destruct (write_reply e k _) as [n failed]. cbn [fst]. lia.
Qed.

Lemma events_events evs1 evs2 w :
  events evs2 (events evs1 w) = events (evs1 ++ evs2) w.
Proof. unfold events; cbn [rw trace]. by rewrite app_assoc. Qed.

Lemma commit_sent code r sh : rw_sent r = Some sh -> commit code r = r.
Proof. unfold commit. by intros ->. Qed.

Lemma reads_of_app tr1 tr2 : reads_of (tr1 ++ tr2) = reads_of tr1 ++ reads_of tr2.
Proof. apply omap_app. Qed.

Lemma writes_of_app tr1 tr2 : writes_of (tr1 ++ tr2) = writes_of tr1 ++ writes_of tr2.
Proof. apply omap_app. Qed.

Lemma pendings_of_app tr1 tr2 :
  pendings_of (tr1 ++ tr2) = pendings_of tr1 ++ pendings_of tr2.
Proof. apply omap_app. Qed.

Lemma opens_of_app tr1 tr2 : opens_of (tr1 ++ tr2) = opens_of tr1 ++ opens_of tr2.
Proof. apply omap_app. Qed.

Lemma closes_of_app tr1 tr2 : closes_of (tr1 ++ tr2) = closes_of tr1 ++ closes_of tr2.
Proof. apply omap_app. Qed.

Lemma logs_of_app tr1 tr2 : logs_of (tr1 ++ tr2) = logs_of tr1 ++ logs_of tr2.
Proof. apply omap_app. Qed.

Lemma copy_chunk_cases e B p buf w sh :
  0 < p <= Int.max_int64 -> 0 <= B -> len buf = B ->
  rw_sent (rw w) = Some sh ->
  chunk_outcome e p (Z.min p B) buf w (copy_chunk e B (p, buf) w).
Proof.
  intros Hp HB Hbuf Hsent. rewrite copy_chunk_unfold.
  replace (if p >? B then B else p) with (Z.min p B)
    by (destruct (Z.gtb_spec p B); lia).
  set (c := Z.min p B). cbv zeta.
  assert (Hc : 0 <= c <= len buf) by lia.
  destruct (_ || _) eqn:Hguard; [apply orb_true_iff in Hguard; lia|].
  set (rb := take (Z.to_nat c) buf).
  assert (Hrb : length rb = Z.to_nat c).
  { unfold len, rb in *. rewrite length_take. lia. }
  assert (Hrbz : len rb = c) by (unfold len; lia).
  rewrite Hrb.
  pose proof (read_outcome_length e (length (reads_of (trace w))) (Z.to_nat c)) as Hrd.
  destruct (read_outcome _ _ _) as [data failed] eqn:Hread. cbn [fst snd] in *.
  assert (Hrb' : len (data ++ drop (length data) rb) = c).
  { unfold len in *. rewrite length_app, length_drop. lia. }
  rewrite Hrb', Hrbz.
  destruct failed.
  { rewrite events_events. eapply chunk_read_bad; [exact Hread | by left]. }
  destruct (Z.eqb_spec (len data) c) as [Hdata|Hdata]; cbn [negb].
  2:{ rewrite events_events. eapply chunk_read_bad; [exact Hread | by right]. }
  assert (Heq : data ++ drop (length data) rb = data).
  { rewrite drop_ge; [by rewrite app_nil_r | unfold len in *; lia]. }
  rewrite Heq, Hdata. cbn [events rw trace].
  rewrite (commit_sent _ _ _ Hsent).
  rewrite writes_of_app. cbn [writes_of omap]. rewrite app_nil_r.
  pose proof (write_outcome_length e (length (writes_of (trace w))) data) as Hwr.
  destruct (write_outcome _ _ _) as [n wf] eqn:Hwrite. cbn [fst snd] in *.
  unfold events; cbn [rw trace]. rewrite <- !app_assoc. cbn [app].
  destruct wf.
  { apply (chunk_write_bad e p c buf w data n true _ Hread Hdata Hwrite Hwr). by left. }
  destruct (Z.eqb_spec (Z.of_nat n) c) as [Hn|Hn]; cbn [negb].
  2:{ apply (chunk_write_bad e p c buf w data n false _ Hread Hdata Hwrite Hwr). by right. }
  rewrite Int_wrap_small by (unfold Int.in_range, Int.min_int64, Int.max_int64 in *; lia).
  rewrite Hn, take_ge by (unfold len in *; lia).
  assert (n = length data) as -> by (unfold len in *; lia).
  apply (chunk_copied e p c buf w data _ Hread Hdata Hwrite).
  unfold len in *. rewrite length_app, length_drop. lia.
Qed.

Lemma chunk_outcome_sent e p c buf w x w' :
  chunk_outcome e p c buf w (x, w') -> rw_sent (rw w') = rw_sent (rw w).
Proof. inversion 1; reflexivity. Qed.

Lemma chunk_outcome_val e p c buf w p' buf' w' :
  chunk_outcome e p c buf w (Val (p', buf'), w') ->
  p' = p - c /\ len buf' = len buf.
Proof. inversion 1; subst. auto. Qed.

Lemma chunk_outcome_res e p c buf w x w' :
  chunk_outcome e p c buf w (x, w') -> x = Ret \/ exists st, x = Val st.
Proof. inversion 1; eauto. Qed.

Lemma copy_loop_S e fuel B p buf w :
  copy_loop e (S fuel) B (p, buf) w =
  if p >? 0 then
    match copy_chunk e B (p, buf) (events [EvPending p] w) with
    | (Val (p', buf'), w') => copy_loop e fuel B (p', buf') w'
    | (Ret, w') => (Ret, w')
    | (Pan, w') => (Pan, w')
    | (Div, w') => (Div, w')
    end
  else (Val (p, buf), events [EvPending p] w).
Proof.
  cbn [copy_loop fst]. unfold bind at 1, emit at 1. fold (events [EvPending p] w).
  destruct (p >? 0); [|reflexivity].
  unfold bind. destruct (copy_chunk _ _ _ _) as [[[p' buf']| | |] w']; reflexivity.
Qed.

(** Every execution of the loop is a [loop_run], and with a buffer size
    of at least one the loop is left after at most [pendingSize] turns. *)
Lemma copy_loop_run e B fuel : forall p buf w sh,
  p <= Int.max_int64 -> 0 <= B -> len buf = B ->
  rw_sent (rw w) = Some sh ->
  loop_run e B p buf w (copy_loop e fuel B (p, buf) w) /\
  (1 <= B -> (Z.to_nat p < fuel)%nat ->
   fst (copy_loop e fuel B (p, buf) w) <> Div).
Proof.
  induction fuel as [|fuel IH]; intros p buf w sh Hp HB Hbuf Hsent.
  { split; [apply run_cut | lia]. }
  rewrite copy_loop_S.
  destruct (Z.gtb_spec p 0) as [Hpos|Hneg].
  2:{ split; [by apply run_done | intros _ _; cbn; discriminate]. }
  assert (Hcase : chunk_outcome e p (Z.min p B) buf (events [EvPending p] w)
                    (copy_chunk e B (p, buf) (events [EvPending p] w)))
    by (eapply copy_chunk_cases; eauto; lia).
  destruct (copy_chunk _ _ _ _) as [x w'] eqn:Hchunk.
  pose proof (chunk_outcome_sent _ _ _ _ _ _ _ Hcase) as Hsent'.
  destruct (chunk_outcome_res _ _ _ _ _ _ _ Hcase) as [->|[[p' buf'] ->]].
  { split; [by apply run_stop | intros _ _; cbn; discriminate]. }
  destruct (chunk_outcome_val _ _ _ _ _ _ _ _ Hcase) as [Hp' Hbuf'].
  destruct (IH p' buf' w' sh) as [Hrun Hret];
    [lia | lia | lia | by rewrite Hsent' |].
  split; [by eapply run_next|].
  intros HB1 Hfuel. apply Hret; lia.
Qed.

(** ** The handler, path by path *)

Lemma resolve_param r key d what w :
  resolve r key d what w =
  match param r key d with
  | Some v => (Val v, w)
  | None => (Ret, mkWorld (commit StatusBadRequest (rw w))
                          (trace w ++ [EvLog Error what]))
  end.
Proof.
  unfold resolve, param.
  destruct (String.eqb _ _); [reflexivity|]. cbn [negb].
  destruct (strconv.ParseInt _) as [value [err|]]; reflexivity.
Qed.

Lemma bind_logger_Info {A} msg (k : unit -> M A) w :
  bind (logger_Info msg) k w = k tt (events [EvLog Info msg] w).
Proof. reflexivity. Qed.

Lemma bind_resolve {A} r key d what (k : Z -> M A) w :
  bind (resolve r key d what) k w =
  match param r key d with
  | Some v => k v w
  | None => (Ret, mkWorld (commit StatusBadRequest (rw w))
                          (trace w ++ [EvLog Error what]))
  end.
Proof. unfold bind. rewrite resolve_param. by destruct (param r key d). Qed.

Lemma bind_os_Open {A} e (k : bool -> M A) w :
  bind (os_Open e) k w = k (open_fails e) (events [EvOpen (open_fails e)] w).
Proof. reflexivity. Qed.

Lemma deferred_close e w :
  snd ((failed <-- dataFile_Close e ;
        if failed then logger_Error "Failed to close data file" else pure tt)%go w)
  = events (closing e) w.
Proof.
  unfold closing, dataFile_Close, bind, emit, pure, events; cbn [rw trace snd].
  destruct (close_fails e); cbn [logger_Error emit snd rw trace];
    rewrite <- ?app_assoc; reflexivity.
Qed.

Lemma defer_close {A} e (rest : M A) w :
  defer (failed <-- dataFile_Close e ;
         if failed then logger_Error "Failed to close data file" else pure tt)%go
        rest w =
  match rest w with
  | (Div, w') => (Div, w')
  | (x, w') => (x, events (closing e) w')
  end.
Proof.
  unfold defer. destruct (rest w) as [[a| | |] w']; by rewrite ?deferred_close.
Qed.

Lemma maxAlloc_value : runtime.maxAlloc = 281474976710656.
Proof. reflexivity. Qed.

(** [make] panics exactly for the lengths that are not allocatable. *)
Lemma make_bytes_guard n :
  (((n <? 0) || (runtime.maxAlloc <? n)) = true /\ (n < 0 \/ runtime.maxAlloc < n)) \/
  (((n <? 0) || (runtime.maxAlloc <? n)) = false /\ allocatable n).
Proof.
  unfold allocatable.
  destruct (Z.ltb_spec n 0); [left; split; [reflexivity | lia]|].
  destruct (Z.ltb_spec runtime.maxAlloc n); [left | right]; split;
    reflexivity || lia.
Qed.

Lemma make_bytes_allocatable n :
  allocatable n -> ((n <? 0) || (runtime.maxAlloc <? n)) = false.
Proof.
  intros [? ?]. destruct (make_bytes_guard n) as [[_ ?]|[? _]]; [lia | done].
Qed.

Lemma make_bytes_panics n :
  n < 0 \/ runtime.maxAlloc < n -> ((n <? 0) || (runtime.maxAlloc <? n)) = true.
Proof.
  intros ?. destruct (make_bytes_guard n) as [[? _]|[_ [? ?]]]; [done | lia].
Qed.

(** The path taken by a request is decided by what its parameters
    resolve to and by whether the byte source opens. *)
Lemma serve_paths fuel e r :
  serve fuel e r =
  match size_of r with
  | None =>
      (Aborted, refused StatusBadRequest
         [EvLog Info "Received request";
          EvLog Error "Failed to parse response size query paramer"])
  | Some size =>
      match buffer_of r with
      | None =>
          (Aborted, refused StatusBadRequest
             [EvLog Info "Received request"; EvLog Info "Response size";
              EvLog Error "Failed to parse buffer size query paramer"])
      | Some B =>
          if open_fails e then
            (Aborted, refused StatusInternalServerError
               (prelude ++ [EvOpen true; EvLog Error "Failed to open data file"]))
          else if (B <? 0) || (runtime.maxAlloc <? B) then
            (Panicked, events (closing e) at_loop)
          else
            match copy_loop e fuel B (size, replicate (Z.to_nat B) x00) at_loop with
            | (Val _, w') =>
                (Completed, events (EvLog Info "Data sent" :: closing e) w')
            | (Ret, w') => (Aborted, events (closing e) w')
            | (Pan, w') => (Panicked, events (closing e) w')
            | (Div, w') => (Running, w')
            end
      end
  end.
Proof.
  unfold serve, ServeHTTP.
  rewrite bind_logger_Info, bind_resolve. fold (size_of r).
  destruct (size_of r) as [size|]; [|reflexivity].
  rewrite bind_logger_Info, bind_resolve. fold (buffer_of r).
  destruct (buffer_of r) as [B|]; [|reflexivity].
  rewrite bind_logger_Info, bind_os_Open.
  destruct (open_fails e); [reflexivity|].
  rewrite defer_close.
  unfold bind at 1. cbn [w_Header_Set modify_rw]. unfold bind at 1.
  cbn [w_WriteHeader modify_rw]. unfold bind at 1, make_bytes.
  change (mkWorld _ _) with at_loop.
  destruct ((B <? 0) || (runtime.maxAlloc <? B)); [reflexivity|].
  unfold pure at 1, bind at 1.
  destruct (copy_loop _ _ _ _ _) as [[st| | |] w']; cbn [ending_of]; try reflexivity.
  unfold logger_Info, emit. fold (events [EvLog Info "Data sent"] w').
  by rewrite events_events.
Qed.

(** ** Properties of every run of the loop *)

Lemma total_app xs ys : total (xs ++ ys) = total xs + total ys.
Proof. unfold total. induction xs as [|x xs IH]; cbn [foldr app]; lia. Qed.


(** What one turn of the loop body adds to the trace and to the body. *)
Lemma chunk_outcome_trace e p c buf w x w' :
  chunk_outcome e p c buf w (x, w') ->
  exists evs,
    trace w' = trace w ++ evs /\
    pendings_of evs = [] /\ opens_of evs = [] /\ closes_of evs = [] /\
    rw_header (rw w') = rw_header (rw w) /\
    len (body w') = len (body w) + total (writes_of evs).
Proof.
  inversion 1; subst; eexists; (split; [reflexivity|]);
    repeat split; unfold body, sending, events, append_body, len, total;
    cbn [rw trace rw_body]; simpl writes_of; cbn [foldr fst snd];
    rewrite ?length_app.
  - lia.
  - rewrite length_take. lia.
  - unfold len in *. lia.
Qed.

Lemma loop_run_frame e B p buf w out :
  loop_run e B p buf w out ->
  exists evs,
    trace (snd out) = trace w ++ evs /\
    opens_of evs = [] /\ closes_of evs = [] /\
    rw_sent (rw (snd out)) = rw_sent (rw w) /\
    rw_header (rw (snd out)) = rw_header (rw w) /\
    len (body (snd out)) = len (body w) + total (writes_of evs).
Proof.
  induction 1 as [p buf w|p buf w Hp|p buf w w' Hp Hc|p buf w p' buf' w' out Hp Hc Hrun IH];
    cbn [snd].
  - exists []. rewrite app_nil_r. repeat split.
    change (total (writes_of [])) with 0. lia.
  - exists [EvPending p]. repeat split.
    change (total (writes_of [EvPending p])) with 0. unfold body, events; cbn [rw]. lia.
  - pose proof (chunk_outcome_sent _ _ _ _ _ _ _ Hc) as Hs.
    apply chunk_outcome_trace in Hc as (evs & Htr & _ & Ho & Hcl & Hh & Hb).
    exists (EvPending p :: evs). cbn [events trace rw body] in *.
    rewrite Htr, <- app_assoc. repeat split; auto.
  - pose proof (chunk_outcome_sent _ _ _ _ _ _ _ Hc) as Hs.
    apply chunk_outcome_trace in Hc as (evs & Htr & _ & Ho & Hcl & Hh & Hb).
    destruct IH as (evs' & Htr' & Ho' & Hcl' & Hs' & Hh' & Hb').
    exists (EvPending p :: evs ++ evs'). cbn [events trace rw body] in *.
    rewrite Htr', Htr, <- !app_assoc. cbn [app].
    repeat split.
    + change (opens_of ([EvPending p] ++ evs ++ evs') = []).
      by rewrite !opens_of_app, Ho, Ho'.
    + change (closes_of ([EvPending p] ++ evs ++ evs') = []).
      by rewrite !closes_of_app, Hcl, Hcl'.
    + congruence.
    + congruence.
    + change (EvPending p :: evs ++ evs') with ([EvPending p] ++ evs ++ evs').
      rewrite !writes_of_app, !total_app. unfold body in *.
      change (total (writes_of [EvPending p])) with 0.
      cbn [events rw] in Hb. lia.
Qed.




(** ** From the loop to the handler *)

Lemma param_in_range r key d v :
  Int.in_range d -> param r key d = Some v -> Int.in_range v.
Proof.
  intros Hd. unfold param. destruct (String.eqb _ _); [by intros [= <-]|].
  destruct (strconv.ParseInt _) as [value [err|]]; [discriminate|].
  intros [= <-]. apply Int_wrap_in_range.
Qed.

Lemma size_of_in_range r n : size_of r = Some n -> Int.in_range n.
Proof. apply param_in_range. by vm_compute. Qed.

Lemma buffer_of_in_range r n : buffer_of r = Some n -> Int.in_range n.
Proof. apply param_in_range. by vm_compute. Qed.

Lemma serve_run fuel e r size B :
  size_of r = Some size -> buffer_of r = Some B ->
  open_fails e = false -> 0 <= B -> B <= runtime.maxAlloc ->
  let out := copy_loop e fuel B (size, replicate (Z.to_nat B) x00) at_loop in
  serve fuel e r = finish e out /\
  loop_run e B size (replicate (Z.to_nat B) x00) at_loop out /\
  (1 <= B -> (Z.to_nat size < fuel)%nat -> fst out <> Div).
Proof.
  intros Hsize Hbuf Hopen HB Hmax out.
  split.
  - rewrite serve_paths, Hsize, Hbuf, Hopen.
    rewrite make_bytes_allocatable by done.
    subst out. unfold finish.
    destruct (copy_loop _ _ _ _ _) as [[st| | |] w']; cbn [fst snd ending_of tail_events];
      unfold events; rewrite ?app_nil_r; by try destruct w'.
  - apply size_of_in_range in Hsize.
    eapply (copy_loop_run e B fuel size _ at_loop); [apply Hsize | exact HB | | reflexivity].
    unfold len. rewrite length_replicate. lia.
Qed.

Lemma tail_events_quiet e x :
  pendings_of (tail_events e x) = [] /\ reads_of (tail_events e x) = [] /\
  writes_of (tail_events e x) = [] /\ opens_of (tail_events e x) = [] /\
  closes_of (tail_events e x) = match x with Div => [] | _ => [close_fails e] end.
Proof. destruct x; unfold tail_events, closing; destruct (close_fails e); by cbn. Qed.

(** ** Claims settled by the path a request takes *)




(** C5. When both parameters resolve and opening the byte source fails,
    the handler returns with status 500, an empty body, and no read or
    write. *)
Theorem C5_source_unavailable e r size B fuel :
  size_of r = Some size -> buffer_of r = Some B ->
  open_fails e = true ->
  fst (serve fuel e r) = Aborted /\
  status (snd (serve fuel e r)) = Some StatusInternalServerError /\
  body (snd (serve fuel e r)) = [] /\
  reads_of (trace (snd (serve fuel e r))) = [] /\
  writes_of (trace (snd (serve fuel e r))) = [].
Proof.
  intros Hsize Hbuf Hopen. rewrite serve_paths, Hsize, Hbuf, Hopen.
  repeat split.
Qed.

Lemma C5_source_unavailable_witness :
  let r := request {[ "size" := ["5"]; "buffer" := ["2"] ]} in
  fst (serve 10 env_no_source r) = Aborted /\
  status (snd (serve 10 env_no_source r)) = Some StatusInternalServerError /\
  body (snd (serve 10 env_no_source r)) = [] /\
  reads_of (trace (snd (serve 10 env_no_source r))) = [] /\
  writes_of (trace (snd (serve 10 env_no_source r))) = [].
Proof.
  apply (C5_source_unavailable env_no_source
           (request {[ "size" := ["5"]; "buffer" := ["2"] ]}) 5 2 10);
    reflexivity.
Defined.

Lemma param_unparsable r key d :
  Values_Get (Query r) key <> EmptyString ->
  strconv.decimal_integer (Values_Get (Query r) key) = false ->
  param r key d = None.
Proof.
  intros Hne Hdec. unfold param.
  destruct (String.eqb_spec (Values_Get (Query r) key) EmptyString); [done|].
  destruct (strconv.ParseInt _) as [value [err|]] eqn:Hparse; [done|].
  apply ParseInt_inv in Hparse as [_ Hparse]. congruence.
Qed.

(** C3, as amended. A [size] or [buffer] parameter whose value is not
    empty and is not a base-10 integer (an optional sign followed by
    decimal digits) makes the handler return with status 400, without a
    body and without opening the byte source. (The handler takes an empty
    value for an absent parameter.) *)
Theorem C3_unparsable_parameter e r fuel :
  (Values_Get (Query r) "size" <> EmptyString /\
   strconv.decimal_integer (Values_Get (Query r) "size") = false) \/
  (Values_Get (Query r) "buffer" <> EmptyString /\
   strconv.decimal_integer (Values_Get (Query r) "buffer") = false) ->
  fst (serve fuel e r) = Aborted /\
  status (snd (serve fuel e r)) = Some StatusBadRequest /\
  body (snd (serve fuel e r)) = [] /\
  writes_of (trace (snd (serve fuel e r))) = [] /\
  opens_of (trace (snd (serve fuel e r))) = [].
Proof.
  intros Hbad. rewrite serve_paths.
  destruct (size_of r) as [size|] eqn:Hsize; [|repeat split].
  destruct Hbad as [[Hne Hdec]|[Hne Hdec]].
  { unfold size_of in Hsize. by rewrite param_unparsable in Hsize. }
  unfold buffer_of. rewrite param_unparsable by assumption. repeat split.
Qed.

Lemma C3_unparsable_parameter_witness :
  let r := request {[ "size" := ["abc"] ]} in
  fst (serve 10 env_ok r) = Aborted /\
  status (snd (serve 10 env_ok r)) = Some StatusBadRequest /\
  body (snd (serve 10 env_ok r)) = [] /\
  writes_of (trace (snd (serve 10 env_ok r))) = [] /\
  opens_of (trace (snd (serve 10 env_ok r))) = [].
Proof.
  apply (C3_unparsable_parameter env_ok (request {[ "size" := ["abc"] ]}) 10).
  left. split; [discriminate | reflexivity].
Defined.

(** C3 as stated fails: a [buffer] parameter that is present with an
    empty value is not a base-10 integer, yet the request is served with
    status 200 and the five bytes asked for. *)
Lemma C3_counterexample :
  let r := request {[ "size" := ["5"]; "buffer" := [EmptyString] ]} in
  Query r !! "buffer" = Some [EmptyString] /\
  strconv.decimal_integer EmptyString = false /\
  snd (strconv.ParseInt EmptyString) = Some strconv.ErrSyntax /\
  fst (serve 2 env_ok r) = Completed /\
  status (snd (serve 2 env_ok r)) = Some StatusOK /\
  len (body (snd (serve 2 env_ok r))) = 5.
Proof. vm_compute. repeat split. Qed.

Lemma param_parsed r key d v :
  strconv.ParseInt (Values_Get (Query r) key) = (v, None) ->
  param r key d = Some v.
Proof.
  intros Hparse. unfold param.
  destruct (String.eqb_spec (Values_Get (Query r) key) EmptyString) as [Hempty|_].
  { rewrite Hempty in Hparse. discriminate. }
  rewrite Hparse. unfold int_of_int64.
  apply ParseInt_inv in Hparse as [Hrange _]. by rewrite Int_wrap_small.
Qed.

(** C9. When the [buffer] parameter parses as a negative integer and the
    run opens the byte source, the request is not refused with 400: the
    status 200 and the content type are sent, then [make] panics, so the
    handler does not return normally and nothing is read or written; the
    deferred function still closes the byte source. *)
Theorem C9_negative_buffer_panics e r B fuel :
  strconv.ParseInt (Values_Get (Query r) "buffer") = (B, None) ->
  B < 0 ->
  opens_of (trace (snd (serve fuel e r))) = [false] ->
  fst (serve fuel e r) = Panicked /\
  status (snd (serve fuel e r)) = Some StatusOK /\
  sent_header (snd (serve fuel e r)) "Content-Type"
    = Some ["application/octet-stream"] /\
  body (snd (serve fuel e r)) = [] /\
  reads_of (trace (snd (serve fuel e r))) = [] /\
  writes_of (trace (snd (serve fuel e r))) = [] /\
  closes_of (trace (snd (serve fuel e r))) = [close_fails e].
Proof.
  intros Hparse HB. apply (param_parsed r "buffer" defaultBufferSize) in Hparse.
  rewrite serve_paths. fold (buffer_of r) in Hparse. rewrite Hparse.
  destruct (size_of r) as [size|]; [|discriminate].
  destruct (open_fails e); [discriminate|].
  destruct (Z.ltb_spec B 0); [|lia]. intros _.
  unfold closing. destruct (close_fails e); repeat split.
Qed.

Lemma C9_negative_buffer_panics_witness :
  let r := request {[ "size" := ["5"]; "buffer" := ["-2"] ]} in
  fst (serve 10 env_ok r) = Panicked /\
  status (snd (serve 10 env_ok r)) = Some StatusOK /\
  sent_header (snd (serve 10 env_ok r)) "Content-Type"
    = Some ["application/octet-stream"] /\
  body (snd (serve 10 env_ok r)) = [] /\
  reads_of (trace (snd (serve 10 env_ok r))) = [] /\
  writes_of (trace (snd (serve 10 env_ok r))) = [] /\
  closes_of (trace (snd (serve 10 env_ok r))) = [close_fails env_ok].
Proof.
  apply (C9_negative_buffer_panics env_ok
           (request {[ "size" := ["5"]; "buffer" := ["-2"] ]}) (-2) 10);
    [reflexivity | lia | reflexivity].
Defined.

Lemma copy_loop_guard_false e fuel B p buf w :
  p <= 0 ->
  copy_loop e (S fuel) B (p, buf) w = (Val (p, buf), events [EvPending p] w).
Proof.
  intros Hp. rewrite copy_loop_S. by destruct (Z.gtb_spec p 0); [lia|].
Qed.

(** What a request with [size <= 0] gets once its buffer has resolved to
    a length that [make] accepts and the byte source has opened. *)
Lemma serve_nothing_to_send e r size B fuel :
  size_of r = Some size -> size <= 0 ->
  buffer_of r = Some B -> allocatable B ->
  open_fails e = false ->
  serve (S fuel) e r =
  (Completed,
   events (EvPending size :: EvLog Info "Data sent" :: closing e) at_loop).
Proof.
  intros Hsize Hs Hbuf HB Hopen.
  rewrite serve_paths, Hsize, Hbuf, Hopen.
  rewrite make_bytes_allocatable by assumption.
  rewrite copy_loop_guard_false by assumption. by rewrite events_events.
Qed.

(** C10, as amended. When the [size] parameter parses as a negative
    integer, the [buffer] parameter resolves to a length [B] that [make]
    accepts ([0 <= B <= runtime.maxAlloc]) and the byte source opens, the
    request is not refused: the byte source is opened, status 200 and the
    content type are sent, the guard of the loop is evaluated once and
    found false, nothing is read or written and the body is empty. *)
Theorem C10_negative_size_accepted e r size B fuel :
  strconv.ParseInt (Values_Get (Query r) "size") = (size, None) ->
  size < 0 ->
  buffer_of r = Some B -> 0 <= B <= runtime.maxAlloc ->
  open_fails e = false ->
  (0 < fuel)%nat ->
  fst (serve fuel e r) = Completed /\
  opens_of (trace (snd (serve fuel e r))) = [false] /\
  status (snd (serve fuel e r)) = Some StatusOK /\
  sent_header (snd (serve fuel e r)) "Content-Type"
    = Some ["application/octet-stream"] /\
  pendings_of (trace (snd (serve fuel e r))) = [size] /\
  body (snd (serve fuel e r)) = [] /\
  reads_of (trace (snd (serve fuel e r))) = [] /\
  writes_of (trace (snd (serve fuel e r))) = [].
Proof.
  intros Hparse Hs Hbuf HB Hopen Hfuel.
  apply (param_parsed r "size" defaultDataSize) in Hparse.
  destruct fuel as [|fuel]; [lia|].
  rewrite (serve_nothing_to_send e r size B) by (assumption || lia).
  unfold closing. destruct (close_fails e); repeat split.
Qed.

Lemma C10_negative_size_accepted_witness :
  let r := request {[ "size" := ["-3"]; "buffer" := ["2"] ]} in
  fst (serve 1 env_ok r) = Completed /\
  opens_of (trace (snd (serve 1 env_ok r))) = [false] /\
  status (snd (serve 1 env_ok r)) = Some StatusOK /\
  sent_header (snd (serve 1 env_ok r)) "Content-Type"
    = Some ["application/octet-stream"] /\
  pendings_of (trace (snd (serve 1 env_ok r))) = [-3] /\
  body (snd (serve 1 env_ok r)) = [] /\
  reads_of (trace (snd (serve 1 env_ok r))) = [] /\
  writes_of (trace (snd (serve 1 env_ok r))) = [].
Proof.
  apply (C10_negative_size_accepted env_ok
           (request {[ "size" := ["-3"]; "buffer" := ["2"] ]}) (-3) 2 1);
    [reflexivity | lia | reflexivity | by vm_compute | reflexivity | lia].
Defined.

(** C10 as stated fails: a negative [size] is refused with 400 when the
    [buffer] parameter does not parse, gets 500 when the byte source does
    not open, and with a [buffer] that is negative or larger than [make]
    accepts the handler panics before the guard of the loop is ever
    evaluated. *)
Lemma C10_counterexample :
  (forall fuel,
     status (snd (serve fuel env_ok
       (request {[ "size" := ["-3"]; "buffer" := ["abc"] ]})))
     = Some StatusBadRequest) /\
  (forall fuel,
     status (snd (serve fuel env_no_source (request {[ "size" := ["-3"] ]})))
     = Some StatusInternalServerError) /\
  (forall fuel,
     let out := serve fuel env_ok
                  (request {[ "size" := ["-3"]; "buffer" := ["-2"] ]}) in
     fst out = Panicked /\ pendings_of (trace (snd out)) = []) /\
  (forall fuel,
     let out := serve fuel env_ok
                  (request {[ "size" := ["-3"];
                              "buffer" := ["9223372036854775807"] ]}) in
     fst out = Panicked /\ pendings_of (trace (snd out)) = []).
Proof.
  split; [|split; [|split]]; intros fuel; rewrite serve_paths; by vm_compute.
Qed.

(** C7, as amended. When [size] resolves to 0, [buffer] resolves to
    [B >= 1] and the byte source opens, the handler responds with status
    200 and an empty body, and the loop reads and writes nothing; the
    handler completes when [make] accepts [B], that is for [B] up to
    [runtime.maxAlloc]. *)
Theorem C7_zero_size e r B fuel :
  size_of r = Some 0 -> buffer_of r = Some B -> 1 <= B ->
  open_fails e = false ->
  (0 < fuel)%nat ->
  (B <= runtime.maxAlloc -> fst (serve fuel e r) = Completed) /\
  status (snd (serve fuel e r)) = Some StatusOK /\
  body (snd (serve fuel e r)) = [] /\
  reads_of (trace (snd (serve fuel e r))) = [] /\
  writes_of (trace (snd (serve fuel e r))) = [].
Proof.
  intros Hsize Hbuf HB Hopen Hfuel.
  destruct (make_bytes_guard B) as [[Hg Hbig]|[Hg Halloc]].
  { rewrite serve_paths, Hsize, Hbuf, Hopen, Hg.
    split; [intros ?; lia|].
    unfold closing. destruct (close_fails e); repeat split. }
  destruct fuel as [|fuel]; [lia|].
  rewrite (serve_nothing_to_send e r 0 B) by (assumption || lia).
  split; [done|].
  unfold closing. destruct (close_fails e); repeat split.
Qed.

Lemma C7_zero_size_witness :
  let r := request {[ "size" := ["0"] ]} in
  (defaultBufferSize <= runtime.maxAlloc -> fst (serve 1 env_ok r) = Completed) /\
  status (snd (serve 1 env_ok r)) = Some StatusOK /\
  body (snd (serve 1 env_ok r)) = [] /\
  reads_of (trace (snd (serve 1 env_ok r))) = [] /\
  writes_of (trace (snd (serve 1 env_ok r))) = [].
Proof.
  apply (C7_zero_size env_ok (request {[ "size" := ["0"] ]}) defaultBufferSize 1);
    [reflexivity | reflexivity | by vm_compute | reflexivity | lia].
Defined.

(** C7 as stated fails: with [size=0] and the default buffer, a byte
    source that does not open gives status 500. *)
Lemma C7_counterexample :
  let r := request {[ "size" := ["0"] ]} in
  size_of r = Some 0 /\ buffer_of r = Some defaultBufferSize /\
  forall fuel,
    fst (serve fuel env_no_source r) = Aborted /\
    status (snd (serve fuel env_no_source r)) = Some StatusInternalServerError.
Proof.
  split; [reflexivity|]. split; [reflexivity|].
  intros fuel. rewrite serve_paths. by vm_compute.
Qed.

Lemma copy_chunk_zero e p w sh :
  0 < p <= Int.max_int64 -> rw_sent (rw w) = Some sh ->
  exists w',
    copy_chunk e 0 (p, []) w = (Val (p, []), w') /\
    trace w' = trace w ++ [EvRead 0 0 false; EvWrite 0 0 false] /\
    rw_sent (rw w') = Some sh /\ body w' = body w.
Proof.
  intros Hp Hsent.
  pose proof (copy_chunk_cases e 0 p [] w sh Hp (Z.le_refl 0) eq_refl Hsent) as Hcase.
  replace (Z.min p 0) with 0 in Hcase by lia.
  destruct (copy_chunk e 0 (p, []) w) as [x w'].
  inversion Hcase as [data f msg Hread Hbad|data got f msg Hread Hlen Hwrite Hgot Hbad
                     |data buf' Hread Hlen Hwrite Hbuf];
    subst; change (Z.to_nat 0) with O in Hread;
    unfold read_outcome in Hread; simplify_eq.
  - by destruct Hbad as [[=]|Hbad].
  - unfold write_outcome in Hwrite. simplify_eq.
    by destruct Hbad as [[=]|Hbad].
  - destruct buf'; [|discriminate].
    replace (p - 0) with p by lia.
    eexists. split; [reflexivity|].
    unfold body, sending, events, append_body; cbn [rw trace rw_sent rw_body].
    by rewrite app_nil_r.
Qed.

(** With a buffer size of 0 and a positive [pendingSize] the loop uses
    up any bound: each of its turns asks for no bytes, and leaves
    [pendingSize] and the body as they were. *)
Lemma copy_loop_zero e fuel : forall p w sh,
  0 < p <= Int.max_int64 -> rw_sent (rw w) = Some sh ->
  exists w',
    copy_loop e fuel 0 (p, []) w = (Div, w') /\
    trace w' = trace w ++ concat (replicate fuel (idle_turn p)) /\
    body w' = body w.
Proof.
  induction fuel as [|fuel IH]; intros p w sh Hp Hsent.
  { exists w. by rewrite app_nil_r. }
  rewrite copy_loop_S. destruct (Z.gtb_spec p 0); [|lia].
  destruct (copy_chunk_zero e p (events [EvPending p] w) sh Hp Hsent)
    as (w1 & -> & Htr1 & Hsent1 & Hbody1).
  destruct (IH p w1 sh Hp Hsent1) as (w' & -> & Htr & Hbody).
  exists w'. split; [reflexivity|]. split; [|by rewrite Hbody, Hbody1].
  rewrite Htr, Htr1. cbn [events trace replicate concat idle_turn].
  by rewrite <- !app_assoc.
Qed.

Lemma idle_turns p n :
  reads_of (concat (replicate n (idle_turn p))) = replicate n (full 0) /\
  writes_of (concat (replicate n (idle_turn p))) = replicate n (full 0) /\
  pendings_of (concat (replicate n (idle_turn p))) = replicate n p.
Proof.
  induction n as [|n (IHr & IHw & IHp)]; [done|].
  cbn [replicate concat].
  rewrite reads_of_app, writes_of_app, pendings_of_app, IHr, IHw, IHp. done.
Qed.

(** C8. When the [buffer] parameter parses to 0 and [size] resolves to a
    positive value, every turn of the loop computes a chunk of 0 bytes,
    reads 0 bytes and writes 0 bytes without an error, and finds
    [pendingSize] at its initial value; the handler never completes, and
    once the byte source has opened it is still in the loop after any
    number of turns ([fuel] of them within a bound of [fuel]). *)
Theorem C8_zero_buffer_never_ends e r size fuel :
  size_of r = Some size -> 0 < size ->
  strconv.ParseInt (Values_Get (Query r) "buffer") = (0, None) ->
  let out := serve fuel e r in
  (forall x, x ∈ reads_of (trace (snd out)) -> x = full 0) /\
  (forall x, x ∈ writes_of (trace (snd out)) -> x = full 0) /\
  (forall p, p ∈ pendings_of (trace (snd out)) -> p = size) /\
  body (snd out) = [] /\
  fst out <> Completed /\
  (open_fails e = false ->
   fst out = Running /\
   pendings_of (trace (snd out)) = replicate fuel size /\
   reads_of (trace (snd out)) = replicate fuel (full 0) /\
   writes_of (trace (snd out)) = replicate fuel (full 0)).
Proof.
  intros Hsize Hpos Hparse out.
  apply (param_parsed r "buffer" defaultBufferSize) in Hparse.
  fold (buffer_of r) in Hparse.
  subst out. rewrite serve_paths, Hsize, Hparse.
  destruct (open_fails e).
  { cbn [fst snd]. repeat split; try discriminate; by intros x ?%elem_of_nil. }
  pose proof (size_of_in_range _ _ Hsize) as [_ Hmax].
  destruct (copy_loop_zero e fuel size at_loop _ (conj Hpos Hmax) eq_refl)
    as (w' & Hloop & Htr & Hbody).
  change (replicate (Z.to_nat 0) x00) with (@nil byte).
  change ((0 <? 0) || (runtime.maxAlloc <? 0)) with false. cbv iota.
  rewrite Hloop. cbn [fst snd].
  destruct (idle_turns size fuel) as (Hr & Hw & Hp).
  rewrite Htr, reads_of_app, writes_of_app, pendings_of_app, Hr, Hw, Hp, Hbody.
  repeat split; try discriminate.
  all: intros x Hx; cbn in Hx; by apply elem_of_replicate in Hx as [-> _].
Qed.

Lemma C8_zero_buffer_never_ends_witness :
  let out := serve 4 env_ok (request {[ "size" := ["3"]; "buffer" := ["0"] ]}) in
  (forall x, x ∈ reads_of (trace (snd out)) -> x = full 0) /\
  (forall x, x ∈ writes_of (trace (snd out)) -> x = full 0) /\
  (forall p, p ∈ pendings_of (trace (snd out)) -> p = 3) /\
  body (snd out) = [] /\
  fst out <> Completed /\
  (open_fails env_ok = false ->
   fst out = Running /\
   pendings_of (trace (snd out)) = replicate 4 3 /\
   reads_of (trace (snd out)) = replicate 4 (full 0) /\
   writes_of (trace (snd out)) = replicate 4 (full 0)).
Proof.
  apply (C8_zero_buffer_never_ends env_ok
           (request {[ "size" := ["3"]; "buffer" := ["0"] ]}) 3 4);
    [reflexivity | lia | reflexivity].
Defined.

(** ** Runs in which every read and write succeeds in full *)

Lemma read_outcome_full e k n data f :
  reads_in_full e -> read_outcome e k n = (data, f) ->
  f = false /\ length data = n.
Proof.
  intros Hfull. unfold read_outcome. destruct n as [|n]; [by intros [= <- <-]|].
  destruct (Hfull k (S n)) as [Herr Hlen].
  destruct (read_reply e k (S n)) as [d failed]. cbn [fst snd] in *. subst failed.
  rewrite take_ge by lia. destruct d; [discriminate|]. by intros [= <- <-].
Qed.

Lemma write_outcome_full e k p :
  writes_in_full e -> write_outcome e k p = (length p, false).
Proof.
  intros Hfull. unfold write_outcome. destruct p as [|b p]; [done|].
  rewrite Hfull. by rewrite Nat.min_id.
Qed.

Lemma chunk_lengths_zero B : 1 <= B -> chunk_lengths 0 B = [].
Proof.
  intros HB. unfold chunk_lengths. by rewrite Z.div_0_l, Z.mod_0_l by lia.
Qed.

Lemma chunk_lengths_step p B :
  0 < p -> 1 <= B ->
  chunk_lengths p B = Z.min p B :: chunk_lengths (p - Z.min p B) B.
Proof.
  intros Hp HB. unfold chunk_lengths.
  destruct (Z.le_gt_cases B p) as [Hle|Hgt].
  - rewrite Z.min_r by lia.
    replace (p - B) with (p + (-1) * B) by lia.
    rewrite Z.div_add, Z.mod_add by lia.
    assert (1 <= p / B) by (apply Z.div_le_lower_bound; lia).
    replace (Z.to_nat (p / B)) with (S (Z.to_nat (p / B + -1))) by lia.
    reflexivity.
  - rewrite Z.min_l, Z.sub_diag, Z.div_small, Z.mod_small by lia.
    destruct (Z.eqb_spec p 0); [lia|]. reflexivity.
Qed.

Lemma loop_run_in_full e B p buf w out :
  loop_run e B p buf w out ->
  fst out <> Div -> reads_in_full e -> writes_in_full e ->
  0 <= p -> 1 <= B ->
  (exists buf', fst out = Val (0, buf')) /\
  exists evs,
    trace (snd out) = trace w ++ evs /\
    reads_of evs = full <$> chunk_lengths p B /\
    writes_of evs = full <$> chunk_lengths p B /\
    (forall i c, chunk_lengths p B !! i = Some c ->
       exists q, pendings_of evs !! i = Some q /\ c = Z.min q B).
Proof.
  intros Hrun Hdiv Hreads Hwrites.
  induction Hrun as [p buf w|p buf w Hp|p buf w w' Hp Hc
                    |p buf w p' buf' w' out Hp Hc Hrun IH];
    intros Hp0 HB; cbn [fst snd] in *.
  - done.
  - assert (p = 0) as -> by lia. split; [by eexists|].
    exists [EvPending 0]. rewrite chunk_lengths_zero by lia.
    repeat split. by intros i c [=].
  - exfalso. inversion Hc as [data f msg Hread Hbad
                             |data got f msg Hread Hlen Hwrite Hgot Hbad|]; subst.
    + apply (read_outcome_full _ _ _ _ _ Hreads) in Hread as [-> Hlen].
      unfold len in Hbad. destruct Hbad; [discriminate | lia].
    + rewrite (write_outcome_full _ _ _ Hwrites) in Hwrite.
      injection Hwrite as <- <-. by destruct Hbad.
  - inversion Hc as [| |data buf'' Hread Hlen Hwrite Hbuf]; subst.
    destruct (IH Hdiv) as (Hval & evs & Htr & Hrs & Hws & Hps); [lia | lia |].
    split; [exact Hval|].
    exists ([EvPending p; EvRead (Z.min p B) (Z.min p B) false;
             EvWrite (Z.min p B) (Z.min p B) false] ++ evs).
    rewrite Htr. unfold events, sending; cbn [trace].
    rewrite reads_of_app, writes_of_app, pendings_of_app, Hrs, Hws.
    rewrite (chunk_lengths_step p B) by lia.
    split; [by rewrite <- !app_assoc|]. split; [done|]. split; [done|].
    intros [|i] c; [intros [= <-]; by exists p|]. apply Hps.
Qed.

Lemma total_replicate n c : total (replicate n (full c)) = Z.of_nat n * c.
Proof. unfold total. induction n as [|n IH]; cbn [replicate foldr full fst snd]; lia. Qed.

Lemma total_chunk_lengths p B :
  0 <= p -> 1 <= B -> total (full <$> chunk_lengths p B) = p.
Proof.
  intros Hp HB. unfold chunk_lengths.
  rewrite fmap_app, total_app, fmap_replicate, total_replicate.
  pose proof (Z.div_mod p B ltac:(lia)) as Hdm.
  pose proof (Z.div_pos p B ltac:(lia) ltac:(lia)).
  destruct (Z.eqb_spec (p mod B) 0) as [H0|_]; unfold total; cbn; lia.
Qed.

Lemma chunk_lengths_count p B :
  0 <= p -> 1 <= B ->
  Z.of_nat (length (chunk_lengths p B)) = (p + B - 1) / B.
Proof.
  intros Hp HB. unfold chunk_lengths.
  pose proof (Z.div_mod p B ltac:(lia)) as Hdm.
  pose proof (Z.mod_pos_bound p B ltac:(lia)) as Hm.
  pose proof (Z.div_pos p B ltac:(lia) ltac:(lia)).
  rewrite length_app, length_replicate.
  destruct (Z.eqb_spec (p mod B) 0) as [H0|Hn]; cbn [length].
  - rewrite Nat.add_0_r, Z2Nat.id by lia.
    apply (Z.div_unique _ _ _ (B - 1)); lia.
  - replace (Z.of_nat (Z.to_nat (p / B) + 1)) with (p / B + 1) by lia.
    apply (Z.div_unique _ _ _ (p mod B - 1)); lia.
Qed.

Lemma chunk_lengths_inner p B i :
  (i + 1 < length (chunk_lengths p B))%nat -> chunk_lengths p B !! i = Some B.
Proof.
  unfold chunk_lengths. rewrite length_app, length_replicate. intros Hi.
  rewrite lookup_app_l by (rewrite length_replicate; destruct (_ =? _); cbn in Hi; lia).
  apply lookup_replicate_2. destruct (_ =? _); cbn in Hi; lia.
Qed.

Lemma chunk_lengths_last p B :
  0 < p -> 1 <= B ->
  last (chunk_lengths p B) = Some (if p mod B =? 0 then B else p mod B).
Proof.
  intros Hp HB. unfold chunk_lengths.
  destruct (Z.eqb_spec (p mod B) 0) as [H0|Hn].
  - rewrite app_nil_r.
    pose proof (Z.div_mod p B ltac:(lia)) as Hdm.
    assert (1 <= p / B) by nia.
    replace (Z.to_nat (p / B)) with (S (Z.to_nat (p / B - 1))) by lia.
    rewrite replicate_S_end. apply last_snoc.
  - apply last_snoc.
Qed.

Lemma env_ok_reads : reads_in_full env_ok.
Proof. intros k n. cbn. by rewrite length_replicate. Qed.

Lemma env_ok_writes : writes_in_full env_ok.
Proof. by intros k n. Qed.

(** The run of a request whose sizes are valid, when the byte source
    opens and every read and write succeeds in full. *)
Lemma serve_in_full e r size B fuel :
  size_of r = Some size -> buffer_of r = Some B ->
  0 <= size -> 1 <= B -> B <= runtime.maxAlloc ->
  open_fails e = false -> reads_in_full e -> writes_in_full e ->
  (Z.to_nat size < fuel)%nat ->
  exists w evs,
    serve fuel e r = (Completed, w) /\
    trace w = trace at_loop ++ evs ++ EvLog Info "Data sent" :: closing e /\
    reads_of evs = full <$> chunk_lengths size B /\
    writes_of evs = full <$> chunk_lengths size B /\
    (forall i c, chunk_lengths size B !! i = Some c ->
       exists q, pendings_of evs !! i = Some q /\ c = Z.min q B) /\
    rw_sent (rw w) = Some (StatusOK, octet_header) /\
    len (body w) = size.
Proof.
  intros Hsize Hbuf Hs HB Hmax Hopen Hreads Hwrites Hfuel.
  destruct (serve_run fuel e r size B Hsize Hbuf Hopen) as (Heq & Hrun & Hret);
    [lia | exact Hmax |].
  specialize (Hret HB Hfuel).
  destruct (loop_run_in_full _ _ _ _ _ _ Hrun Hret Hreads Hwrites Hs HB)
    as ([buf' Hval] & evs & Htr & Hrs & Hws & Hps).
  destruct (loop_run_frame _ _ _ _ _ _ Hrun) as (evs' & Htr' & _ & _ & Hsent & _ & Hbody).
  assert (evs' = evs) as -> by (apply (app_inv_head (trace at_loop)); congruence).
  rewrite Heq. unfold finish. rewrite Hval. cbn [ending_of tail_events].
  eexists _, evs. split; [reflexivity|]. cbn [trace rw].
  split; [by rewrite Htr, <- app_assoc|].
  repeat split; try assumption.
  rewrite Hws, total_chunk_lengths in Hbody by lia. exact Hbody.
Qed.

(** C1, as amended. When the parameters resolve to [size >= 0] and to
    [B >= 1] no larger than [make] accepts ([runtime.maxAlloc]), the byte
    source opens and every read and write succeeds in full, the handler
    completes (within any bound above [size] on the number of turns of
    the loop) with status 200, content type [application/octet-stream]
    and a body of exactly [size] bytes. *)
Theorem C1_full_response e r size B fuel :
  size_of r = Some size -> buffer_of r = Some B ->
  0 <= size -> 1 <= B <= runtime.maxAlloc ->
  open_fails e = false -> reads_in_full e -> writes_in_full e ->
  (Z.to_nat size < fuel)%nat ->
  fst (serve fuel e r) = Completed /\
  status (snd (serve fuel e r)) = Some StatusOK /\
  sent_header (snd (serve fuel e r)) "Content-Type"
    = Some ["application/octet-stream"] /\
  len (body (snd (serve fuel e r))) = size.
Proof.
  intros Hsize Hbuf Hs [HB Hmax] Hopen Hreads Hwrites Hfuel.
  destruct (serve_in_full e r size B fuel)
    as (w & evs & -> & _ & _ & _ & _ & Hsent & Hbody); try assumption.
  unfold status, sent_header. cbn [fst snd]. rewrite Hsent.
  repeat split. exact Hbody.
Qed.

Lemma C1_full_response_witness :
  let r := request {[ "size" := ["5"]; "buffer" := ["2"] ]} in
  fst (serve 6 env_ok r) = Completed /\
  status (snd (serve 6 env_ok r)) = Some StatusOK /\
  sent_header (snd (serve 6 env_ok r)) "Content-Type"
    = Some ["application/octet-stream"] /\
  len (body (snd (serve 6 env_ok r))) = 5.
Proof.
  apply (C1_full_response env_ok
           (request {[ "size" := ["5"]; "buffer" := ["2"] ]}) 5 2 6);
    [reflexivity | reflexivity | lia | by vm_compute | reflexivity
    | exact env_ok_reads | exact env_ok_writes | cbn; lia].
Defined.

(** C1 as stated fails: with [size=1] and [buffer=9223372036854775807],
    both valid, a byte source that opens and reads and writes that all
    succeed in full, [make] panics on the length of the buffer once the
    status is sent, and the body stays empty where one byte is
    announced. *)
Lemma C1_counterexample :
  let r := request {[ "size" := ["1"]; "buffer" := ["9223372036854775807"] ]} in
  size_of r = Some 1 /\ buffer_of r = Some 9223372036854775807 /\
  open_fails env_ok = false /\ reads_in_full env_ok /\ writes_in_full env_ok /\
  forall fuel,
    fst (serve fuel env_ok r) = Panicked /\
    status (snd (serve fuel env_ok r)) = Some StatusOK /\
    body (snd (serve fuel env_ok r)) = [] /\
    len (body (snd (serve fuel env_ok r))) <> 1.
Proof.
  split; [reflexivity|]. split; [reflexivity|]. split; [reflexivity|].
  split; [exact env_ok_reads|]. split; [exact env_ok_writes|].
  intros fuel. rewrite serve_paths. by vm_compute.
Qed.

(** C2, as amended. When the sizes resolve to [size >= 0] and to
    [B >= 1] no larger than [make] accepts ([runtime.maxAlloc]), the byte
    source opens and every read and write succeeds in full, the reads and
    the writes are the same sequence of chunks, each transferred in full;
    chunk [i] has length [min q B] for [q] the value of [pendingSize] at
    the [i]-th evaluation of the guard; there are [ceil (size / B)]
    chunks; every chunk but the last has length [B], and the last has
    length [size mod B], or [B] when that is 0. *)
Theorem C2_chunking e r size B fuel :
  size_of r = Some size -> buffer_of r = Some B ->
  0 <= size -> 1 <= B <= runtime.maxAlloc ->
  open_fails e = false -> reads_in_full e -> writes_in_full e ->
  (Z.to_nat size < fuel)%nat ->
  let w := snd (serve fuel e r) in
  reads_of (trace w) = writes_of (trace w) /\
  (forall i x, writes_of (trace w) !! i = Some x ->
     exists q, pendings_of (trace w) !! i = Some q /\ x = full (Z.min q B)) /\
  Z.of_nat (length (writes_of (trace w))) = (size + B - 1) / B /\
  (forall i, (i + 1 < length (writes_of (trace w)))%nat ->
     writes_of (trace w) !! i = Some (full B)) /\
  (0 < size ->
   last (writes_of (trace w))
   = Some (full (if size mod B =? 0 then B else size mod B))).
Proof.
  intros Hsize Hbuf Hs [HB Hmax] Hopen Hreads Hwrites Hfuel.
  destruct (serve_in_full e r size B fuel)
    as (w & evs & -> & Htr & Hrs & Hws & Hps & _); try assumption.
  cbn [snd]. cbv zeta. rewrite Htr.
  destruct (tail_events_quiet e (Val (0, []))) as (_ & Hqr & Hqw & _).
  cbn [tail_events] in Hqr, Hqw.
  rewrite !reads_of_app, !writes_of_app, !pendings_of_app, Hqr, Hqw, Hrs, Hws.
  change (reads_of (trace at_loop)) with (@nil (Z * Z * bool)).
  change (writes_of (trace at_loop)) with (@nil (Z * Z * bool)).
  change (pendings_of (trace at_loop)) with (@nil Z).
  rewrite !app_nil_r. cbn [app]. rewrite length_fmap.
  split; [reflexivity|]. split; [|split; [|split]].
  - intros i x Hx. apply list_lookup_fmap_Some in Hx as (c & -> & Hc).
    destruct (Hps i c Hc) as (q & Hq & ->). exists q.
    split; [by apply lookup_app_l_Some | reflexivity].
  - by apply chunk_lengths_count.
  - intros i Hi. by rewrite list_lookup_fmap, chunk_lengths_inner.
  - intros Hpos. by rewrite fmap_last, chunk_lengths_last.
Qed.

Lemma C2_chunking_witness :
  let w := snd (serve 6 env_ok (request {[ "size" := ["5"]; "buffer" := ["2"] ]})) in
  reads_of (trace w) = writes_of (trace w) /\
  (forall i x, writes_of (trace w) !! i = Some x ->
     exists q, pendings_of (trace w) !! i = Some q /\ x = full (Z.min q 2)) /\
  Z.of_nat (length (writes_of (trace w))) = (5 + 2 - 1) / 2 /\
  (forall i, (i + 1 < length (writes_of (trace w)))%nat ->
     writes_of (trace w) !! i = Some (full 2)) /\
  (0 < 5 ->
   last (writes_of (trace w))
   = Some (full (if 5 mod 2 =? 0 then 2 else 5 mod 2))).
Proof.
  apply (C2_chunking env_ok
           (request {[ "size" := ["5"]; "buffer" := ["2"] ]}) 5 2 6);
    [reflexivity | reflexivity | lia | by vm_compute | reflexivity
    | exact env_ok_reads | exact env_ok_writes | cbn; lia].
Defined.

(** C2 as stated fails: with [size=5] and [buffer=2] three chunks are
    announced, but no chunk is read or written when the byte source does
    not open, and only two are written when the third read fails; and
    with [size=1] and [buffer=9223372036854775807] one chunk is announced,
    but [make] panics on the length of the buffer and nothing is read or
    written. *)
Lemma C2_counterexample :
  let r := request {[ "size" := ["5"]; "buffer" := ["2"] ]} in
  let r' := request {[ "size" := ["1"]; "buffer" := ["9223372036854775807"] ]} in
  size_of r = Some 5 /\ buffer_of r = Some 2 /\ (5 + 2 - 1) / 2 = 3 /\
  (forall fuel,
     reads_of (trace (snd (serve fuel env_no_source r))) = [] /\
     writes_of (trace (snd (serve fuel env_no_source r))) = []) /\
  fst (serve 6 env_read_error r) = Aborted /\
  reads_of (trace (snd (serve 6 env_read_error r)))
    = [full 2; full 2; (1, 1, true)] /\
  writes_of (trace (snd (serve 6 env_read_error r))) = [full 2; full 2] /\
  size_of r' = Some 1 /\ buffer_of r' = Some 9223372036854775807 /\
  (1 + 9223372036854775807 - 1) / 9223372036854775807 = 1 /\
  (forall fuel,
     fst (serve fuel env_ok r') = Panicked /\
     reads_of (trace (snd (serve fuel env_ok r'))) = [] /\
     writes_of (trace (snd (serve fuel env_ok r'))) = []).
Proof.
  cbv zeta. repeat split; try (by vm_compute).
  all: rewrite serve_paths; by vm_compute.
Qed.

(** ** Runs that are cut short by a failure *)

Lemma clean_nil : clean [].
Proof. by repeat split; constructor. Qed.

Lemma clean_app evs1 evs2 : clean evs1 -> clean evs2 -> clean (evs1 ++ evs2).
Proof.
  intros (Hr1 & Hw1 & Hl1) (Hr2 & Hw2 & Hl2). unfold clean.
  rewrite reads_of_app, writes_of_app, !length_app.
  repeat split; [by apply Forall_app | by apply Forall_app | lia].
Qed.

Lemma clean_turn p c : clean [EvPending p; EvRead c c false; EvWrite c c false].
Proof. repeat split; cbn; repeat constructor; by exists c. Qed.

Lemma clean_pending p : clean [EvPending p].
Proof. by repeat split; constructor. Qed.

Lemma not_bad_full c : ~ bad (full c).
Proof. by intros [[=]|?]. Qed.

Lemma loop_run_abort e B p buf w out :
  loop_run e B p buf w out ->
  exists evs,
    trace (snd out) = trace w ++ evs /\
    match fst out with
    | Ret => read_abort evs \/ write_abort evs
    | _ => clean evs
    end.
Proof.
  induction 1 as [p buf w|p buf w Hp|p buf w w' Hp Hc
                 |p buf w p' buf' w' out Hp Hc Hrun IH]; cbn [fst snd].
  - exists []. split; [by rewrite app_nil_r | apply clean_nil].
  - exists [EvPending p]. split; [reflexivity | apply clean_pending].
  - inversion Hc as [data f msg Hread Hbad
                    |data got f msg Hread Hlen Hwrite Hgot Hbad|]; subst.
    + eexists. split.
      { unfold events; cbn [trace]. rewrite <- app_assoc. reflexivity. }
      left. eexists [EvPending p], _, _, _, _.
      split; [reflexivity|]. split; [exact Hbad | apply clean_pending].
    + eexists. split.
      { unfold events, sending; cbn [trace]. rewrite <- app_assoc. reflexivity. }
      right. eexists [EvPending p], _, _, _, _.
      split; [reflexivity|]. split; [exact Hbad | apply clean_pending].
  - destruct IH as (evs & Htr & Hshape).
    inversion Hc as [| |data buf'' Hread Hlen Hwrite Hbuf]; subst.
    set (turn := [EvPending p; EvRead (Z.min p B) (Z.min p B) false;
                  EvWrite (Z.min p B) (Z.min p B) false]) in *.
    exists (turn ++ evs).
    split.
    { rewrite Htr. unfold events, sending; cbn [trace]. by rewrite <- !app_assoc. }
    assert (Hturn : clean turn) by apply clean_turn.
    destruct (fst out); try (by apply clean_app).
    destruct Hshape as [(evs0 & c & got & f & msg & -> & Hbad & Hclean)
                       |(evs0 & c & got & f & msg & -> & Hbad & Hclean)].
    + left. exists (turn ++ evs0), c, got, f, msg.
      split; [by rewrite app_assoc|]. split; [exact Hbad | by apply clean_app].
    + right. exists (turn ++ evs0), c, got, f, msg.
      split; [by rewrite app_assoc|]. split; [exact Hbad | by apply clean_app].
Qed.

(** C4. When a read of the run fails or delivers another number of
    bytes than asked for, it is the last read: with [k] reads before it
    (all in full), the handler has written exactly those [k] chunks, each
    in full, and nothing else; the loop is left at once, the failed read
    being followed only by its log entry and by the deferred function,
    which closes the byte source. *)
Theorem C4_read_failure_aborts e r fuel k want got failed :
  reads_of (trace (snd (serve fuel e r))) !! k = Some (want, got, failed) ->
  failed = true \/ got <> want ->
  let w := snd (serve fuel e r) in
  fst (serve fuel e r) = Aborted /\
  length (reads_of (trace w)) = S k /\
  length (writes_of (trace w)) = k /\
  (forall y, y ∈ writes_of (trace w) -> exists c, y = full c) /\
  len (body w) = total (writes_of (trace w)) /\
  closes_of (trace w) = [close_fails e] /\
  exists tr msg,
    trace w = tr ++ [EvRead want got failed; EvLog Error msg] ++ closing e.
Proof.
  intros Hk Hbad.
  destruct (size_of r) as [size|] eqn:Hsize;
    [|by rewrite serve_paths, Hsize in Hk].
  destruct (buffer_of r) as [B|] eqn:Hbuf;
    [|by rewrite serve_paths, Hsize, Hbuf in Hk].
  destruct (open_fails e) eqn:Hopen;
    [by rewrite serve_paths, Hsize, Hbuf, Hopen in Hk|].
  destruct (make_bytes_guard B) as [[Hg Hbig]|[Hg [HB Hmax]]].
  { rewrite serve_paths, Hsize, Hbuf, Hopen, Hg in Hk.
    unfold closing in Hk. by destruct (close_fails e). }
  destruct (serve_run fuel e r size B Hsize Hbuf Hopen HB Hmax) as (Heq & Hrun & _).
  destruct (loop_run_abort _ _ _ _ _ _ Hrun) as (evs & Htr & Hshape).
  destruct (loop_run_frame _ _ _ _ _ _ Hrun)
    as (evs' & Htr' & Ho & Hcl & _ & _ & Hbody).
  assert (evs' = evs) as -> by (apply (app_inv_head (trace at_loop)); congruence).
  cbv zeta. rewrite Heq in Hk |- *. unfold finish in Hk |- *.
  cbn [fst snd trace rw body] in Hk |- *. unfold body in Hbody.
  set (x := fst (copy_loop e fuel B (size, replicate (Z.to_nat B) x00) at_loop)) in *.
  destruct (tail_events_quiet e x) as (_ & Hqr & Hqw & _ & Hqc).
  rewrite Htr, <- app_assoc in Hk |- *.
  rewrite !reads_of_app, Hqr, app_nil_r in Hk.
  rewrite !reads_of_app, !writes_of_app, !closes_of_app, Hqr, Hqw, Hqc, Hcl, !app_nil_r.
  change (reads_of (trace at_loop)) with (@nil (Z * Z * bool)) in Hk |- *.
  change (writes_of (trace at_loop)) with (@nil (Z * Z * bool)).
  change (closes_of (trace at_loop)) with (@nil bool).
  change (len (rw_body (rw at_loop))) with 0 in Hbody.
  cbn [app] in Hk |- *.
  assert (Hfull : forall evs0, clean evs0 -> forall i, reads_of evs0 !! i <> Some (want, got, failed)).
  { intros evs0 (Hr & _) i Hi. eapply Forall_lookup_1 in Hr as [c Hc]; [|exact Hi].
    apply (not_bad_full c). by rewrite <- Hc. }
  destruct x eqn:Hx; try (by destruct (Hfull evs Hshape k)).
  destruct Hshape as [(evs0 & c & g & f & msg & -> & _ & Hclean)
                     |(evs0 & c & g & f & msg & -> & _ & Hclean)].
  2:{ exfalso. rewrite reads_of_app in Hk.
      apply lookup_app_Some in Hk as [Hk|[_ Hk]]; [by apply (Hfull _ Hclean k)|].
      cbn in Hk. destruct (k - _)%nat as [|[|]]; try discriminate.
      injection Hk as <- <- <-. by destruct Hbad. }
  rewrite reads_of_app in Hk. rewrite reads_of_app, writes_of_app, length_app.
  destruct Hclean as (Hr & Hw & Hlen).
  apply lookup_app_Some in Hk as [Hk|[Hge Hk]];
    [by destruct (Hfull evs0 (conj Hr (conj Hw Hlen)) k)|].
  cbn in Hk |- *.
  destruct (k - length (reads_of evs0))%nat as [|[|]] eqn:Hidx; try discriminate.
  injection Hk as <- <- <-. rewrite app_nil_r.
  repeat split.
  - lia.
  - lia.
  - intros y Hy. by eapply Forall_forall in Hw.
  - unfold body; cbn [rw]. rewrite Hbody, writes_of_app, total_app.
    change (total (writes_of [EvRead c g f; EvLog Error msg])) with 0. lia.
  - exists (trace at_loop ++ evs0), msg. cbn. by rewrite <- !app_assoc.
Qed.

Lemma C4_read_failure_aborts_witness :
  let r := request {[ "size" := ["10"]; "buffer" := ["2"] ]} in
  let w := snd (serve 11 env_read_error r) in
  fst (serve 11 env_read_error r) = Aborted /\
  length (reads_of (trace w)) = 3%nat /\
  length (writes_of (trace w)) = 2%nat /\
  (forall y, y ∈ writes_of (trace w) -> exists c, y = full c) /\
  len (body w) = total (writes_of (trace w)) /\
  closes_of (trace w) = [close_fails env_read_error] /\
  exists tr msg,
    trace w = tr ++ [EvRead 2 2 true; EvLog Error msg] ++ closing env_read_error.
Proof.
  apply (C4_read_failure_aborts env_read_error
           (request {[ "size" := ["10"]; "buffer" := ["2"] ]}) 11 2 2 2 true);
    [reflexivity | by left].
Defined.

(** * Further properties of the handler *)

(** ** The events of a run *)

Lemma chunk_outcome_got e p c buf w x w' :
  0 <= c ->
  chunk_outcome e p c buf w (x, w') ->
  exists evs, trace w' = trace w ++ evs /\
    ((exists got f msg, x = Ret /\ 0 <= got <= c /\ bad (c, got, f) /\
        evs = [EvRead c got f; EvLog Error msg]) \/
     (exists got f msg, x = Ret /\ 0 <= got <= c /\ bad (c, got, f) /\
        evs = [EvRead c c false; EvWrite c got f; EvLog Error msg]) \/
     (exists buf', x = Val (p - c, buf') /\
        evs = [EvRead c c false; EvWrite c c false])).
Proof.
  intros Hc. inversion 1 as [data f msg Hread Hbad
                            |data got f msg Hread Hlen Hwrite Hgot Hbad
                            |data buf' Hread Hlen Hwrite Hbuf]; subst.
  - eexists. split; [reflexivity|]. left. exists (len data), f, msg.
    pose proof (read_outcome_length e (length (reads_of (trace w))) (Z.to_nat c)) as Hle.
    rewrite Hread in Hle. cbn [fst] in Hle. unfold len in *.
    repeat split; try done; lia.
  - eexists. split; [reflexivity|]. right; left. exists (Z.of_nat got), f, msg.
    unfold len in *. repeat split; try done; lia.
  - eexists. split; [reflexivity|]. right; right. by exists buf'.
Qed.

Lemma loop_run_events e B p buf w out :
  loop_run e B p buf w out -> 0 <= B ->
  exists evs,
    trace (snd out) = trace w ++ evs /\
    loop_events B p (ending_of (fst out)) evs.
Proof.
  induction 1 as [p buf w|p buf w Hp|p buf w w' Hp Hc
                 |p buf w p' buf' w' out Hp Hc Hrun IH]; intros HB; cbn [fst snd ending_of].
  - exists []. split; [by rewrite app_nil_r | constructor].
  - exists [EvPending p]. split; [reflexivity | by constructor].
  - apply chunk_outcome_got in Hc as (evs & Htr & Hcase); [|lia].
    cbn [events trace] in Htr. rewrite <- app_assoc in Htr.
    destruct Hcase as [(got & f & msg & _ & Hgot & Hbad & ->)
                      |[(got & f & msg & _ & Hgot & Hbad & ->)
                       |(buf' & [=] & _)]].
    + eexists. split; [exact Htr|]. by apply loop_read_failed.
    + eexists. split; [exact Htr|]. by apply loop_write_failed.
  - destruct (IH HB) as (evs' & Htr' & Hev).
    destruct (chunk_outcome_val _ _ _ _ _ _ _ _ Hc) as [-> _].
    apply chunk_outcome_got in Hc as (evs & Htr & Hcase); [|lia].
    cbn [events trace] in Htr. rewrite <- app_assoc in Htr.
    destruct Hcase as [(got & f & msg & [=] & _)
                      |[(got & f & msg & [=] & _)
                       |(buf'' & _ & ->)]].
    eexists. split; [by rewrite Htr', Htr, <- app_assoc|].
    by apply loop_turn.
Qed.

Lemma tail_events_ending e (x : res (Z * list byte)) :
  tail_events e x = ending_tail e (ending_of x).
Proof. by destruct x. Qed.

(** The run of a request that reaches the loop: its trace is made of the
    log entries of the parameters, the opening of the byte source, the
    events of the loop, and what follows the loop; status 200 and the
    content type are committed, and the body has the bytes that the
    writes accepted. *)
Lemma serve_events fuel e r size B :
  size_of r = Some size -> buffer_of r = Some B ->
  open_fails e = false -> 0 <= B -> B <= runtime.maxAlloc ->
  exists evs,
    loop_events B size (fst (serve fuel e r)) evs /\
    trace (snd (serve fuel e r))
    = trace at_loop ++ evs ++ ending_tail e (fst (serve fuel e r)) /\
    rw_sent (rw (snd (serve fuel e r))) = Some (StatusOK, octet_header) /\
    len (body (snd (serve fuel e r))) = total (writes_of evs).
Proof.
  intros Hsize Hbuf Hopen HB Hmax.
  destruct (serve_run fuel e r size B Hsize Hbuf Hopen HB Hmax) as (Heq & Hrun & _).
  destruct (loop_run_frame _ _ _ _ _ _ Hrun) as (evs' & Htr' & _ & _ & Hsent & _ & Hbody).
  apply loop_run_events in Hrun as (evs & Htr & Hev); [|exact HB].
  assert (evs' = evs) as -> by (apply (app_inv_head (trace at_loop)); congruence).
  exists evs. rewrite Heq. unfold finish. cbn [fst snd trace rw body].
  split; [exact Hev|]. split; [by rewrite Htr, tail_events_ending, <- app_assoc|].
  split; [exact Hsent|]. unfold body in Hbody.
  etransitivity; [exact Hbody|]. change (len (rw_body (rw at_loop))) with 0. lia.
Qed.

Lemma io_of_app tr1 tr2 : io_of (tr1 ++ tr2) = io_of tr1 ++ io_of tr2.
Proof. apply omap_app. Qed.

Lemma ending_tail_quiet e x :
  pendings_of (ending_tail e x) = [] /\ reads_of (ending_tail e x) = [] /\
  writes_of (ending_tail e x) = [] /\ io_of (ending_tail e x) = [] /\
  opens_of (ending_tail e x) = [] /\
  closes_of (ending_tail e x) = match x with Running => [] | _ => [close_fails e] end.
Proof. destruct x; unfold ending_tail, closing; destruct (close_fails e); by cbn. Qed.

Lemma loop_events_quiet B p x evs :
  loop_events B p x evs -> opens_of evs = [] /\ closes_of evs = [].
Proof. induction 1 as [| | | |p x evs Hp Hev [IHo IHc]]; by cbn. Qed.

(** ** The status of the response *)

(** X1. The status is decided before anything is sent: 400 when a
    parameter does not resolve, 500 when both resolve and the byte
    source does not open, 200 otherwise. A response that is not a 200 has
    no header and no body, and no byte was read for it; a 200 carries the
    content type. *)
Theorem status_decided e r fuel :
  let w := snd (serve fuel e r) in
  status w = Some (match size_of r, buffer_of r with
                   | Some _, Some _ =>
                       if open_fails e then StatusInternalServerError
                       else StatusOK
                   | _, _ => StatusBadRequest
                   end) /\
  (status w <> Some StatusOK ->
   (forall key, sent_header w key = None) /\ body w = [] /\ io_of (trace w) = []) /\
  (status w = Some StatusOK ->
   sent_header w "Content-Type" = Some ["application/octet-stream"]).
Proof.
  cbv zeta. destruct (size_of r) as [size|] eqn:Hsize;
    [|rewrite serve_paths, Hsize; repeat split; discriminate].
  destruct (buffer_of r) as [B|] eqn:Hbuf;
    [|rewrite serve_paths, Hsize, Hbuf; repeat split; discriminate].
  destruct (open_fails e) eqn:Hopen;
    [rewrite serve_paths, Hsize, Hbuf, Hopen; repeat split; discriminate|].
  destruct (make_bytes_guard B) as [[Hg Hbig]|[Hg [HB Hmax]]].
  { rewrite serve_paths, Hsize, Hbuf, Hopen, Hg.
    split; [reflexivity|]. split; [by intros []|]. reflexivity. }
  destruct (serve_events fuel e r size B Hsize Hbuf Hopen HB Hmax)
    as (evs & _ & _ & Hsent & _).
  unfold status, sent_header. rewrite Hsent.
  split; [reflexivity|]. split; [by intros []|]. reflexivity.
Qed.

(** ** How the handler ends *)

Lemma loop_events_not_panicked B p x evs :
  loop_events B p x evs -> x <> Panicked.
Proof. induction 1; done. Qed.

(** X2. The handler panics exactly when both parameters resolve, the
    byte source opens and the buffer size is one that [make] refuses,
    negative or above [runtime.maxAlloc]: the panic is that of [make],
    and the slice expression [dataBuffer[0:readSize]] never goes out of
    bounds. *)
Theorem panics_only_in_make e r fuel :
  fst (serve fuel e r) = Panicked <->
  exists size B,
    size_of r = Some size /\ buffer_of r = Some B /\
    (B < 0 \/ runtime.maxAlloc < B) /\
    open_fails e = false.
Proof.
  split.
  - destruct (size_of r) as [size|] eqn:Hsize;
      [|by rewrite serve_paths, Hsize].
    destruct (buffer_of r) as [B|] eqn:Hbuf;
      [|by rewrite serve_paths, Hsize, Hbuf].
    destruct (open_fails e) eqn:Hopen;
      [by rewrite serve_paths, Hsize, Hbuf, Hopen|].
    destruct (make_bytes_guard B) as [[Hg Hbig]|[Hg [HB Hmax]]];
      [by exists size, B|].
    destruct (serve_events fuel e r size B Hsize Hbuf Hopen HB Hmax) as (evs & Hev & _).
    intros Hpan. by apply loop_events_not_panicked in Hev.
  - intros (size & B & Hsize & Hbuf & HB & Hopen).
    by rewrite serve_paths, Hsize, Hbuf, Hopen, make_bytes_panics.
Qed.

(** X3. Given a bound on the turns of the loop above the resolved size,
    the handler is still running at the bound exactly when the size is
    positive, the buffer size is 0 and the byte source opens; in every
    other case it has ended (returned or panicked). *)
Theorem ends_unless_zero_buffer e r fuel :
  (0 < fuel)%nat ->
  (forall size, size_of r = Some size -> (Z.to_nat size < fuel)%nat) ->
  (fst (serve fuel e r) = Running <->
   exists size,
     size_of r = Some size /\ 0 < size /\ buffer_of r = Some 0 /\
     open_fails e = false).
Proof.
  intros Hfuel0 Hfuel. split.
  - destruct (size_of r) as [size|] eqn:Hsize;
      [|by rewrite serve_paths, Hsize].
    destruct (buffer_of r) as [B|] eqn:Hbuf;
      [|by rewrite serve_paths, Hsize, Hbuf].
    destruct (open_fails e) eqn:Hopen;
      [by rewrite serve_paths, Hsize, Hbuf, Hopen|].
    destruct (make_bytes_guard B) as [[Hg Hbig]|[Hg [HB Hmax]]].
    { by rewrite serve_paths, Hsize, Hbuf, Hopen, Hg. }
    destruct (serve_run fuel e r size B Hsize Hbuf Hopen HB Hmax) as (Heq & _ & Hret).
    rewrite Heq. unfold finish; cbn [fst]. intros Hrun.
    destruct (Z.le_gt_cases 1 B) as [HB1|HB0].
    { specialize (Hret HB1 (Hfuel size eq_refl)).
      by destruct (fst (copy_loop _ _ _ _ _)). }
    assert (B = 0) as -> by lia.
    destruct (Z.le_gt_cases size 0) as [Hle|Hpos]; [|by exists size].
    destruct fuel as [|fuel]; [lia|].
    by rewrite copy_loop_guard_false in Hrun.
  - intros (size & Hsize & Hpos & Hbuf & Hopen).
    rewrite serve_paths, Hsize, Hbuf, Hopen.
    pose proof (size_of_in_range _ _ Hsize) as [_ Hmax].
    destruct (copy_loop_zero e fuel size at_loop _ (conj Hpos Hmax) eq_refl)
      as (w' & Hloop & _).
    change (replicate (Z.to_nat 0) x00) with (@nil byte).
    change (0 <? 0) with false. cbv iota. by rewrite Hloop.
Qed.

Lemma ends_unless_zero_buffer_witness :
  fst (serve 6 env_ok (request {[ "size" := ["5"]; "buffer" := ["2"] ]})) = Running <->
  exists size,
    size_of (request {[ "size" := ["5"]; "buffer" := ["2"] ]}) = Some size /\
    0 < size /\
    buffer_of (request {[ "size" := ["5"]; "buffer" := ["2"] ]}) = Some 0 /\
    open_fails env_ok = false.
Proof.
  apply (ends_unless_zero_buffer env_ok
           (request {[ "size" := ["5"]; "buffer" := ["2"] ]}) 6); [lia|].
  intros size Hsize. vm_compute in Hsize. injection Hsize as <-. vm_compute. lia.
Defined.

(** ** The byte source *)

(** X4. The byte source is opened at most once, after both parameters
    have resolved. When it opened and the handler has ended, it was
    closed exactly once, and nothing but the log entry of a failed close
    follows; it is never closed when it did not open. *)
Theorem source_closed_once e r fuel :
  let tr := trace (snd (serve fuel e r)) in
  let x := fst (serve fuel e r) in
  (opens_of tr = [] <-> size_of r = None \/ buffer_of r = None) /\
  (opens_of tr <> [] -> opens_of tr = [open_fails e]) /\
  (opens_of tr = [false] -> x <> Running ->
   closes_of tr = [close_fails e] /\ exists tr', tr = tr' ++ closing e) /\
  (opens_of tr <> [false] -> closes_of tr = []) /\
  (x = Running -> closes_of tr = []).
Proof.
  cbv zeta. destruct (size_of r) as [size|] eqn:Hsize.
  2:{ rewrite serve_paths, Hsize. cbn. repeat split; try done; auto. }
  destruct (buffer_of r) as [B|] eqn:Hbuf.
  2:{ rewrite serve_paths, Hsize, Hbuf. cbn. repeat split; try done; auto. }
  destruct (open_fails e) eqn:Hopen.
  { rewrite serve_paths, Hsize, Hbuf, Hopen. cbn.
    repeat split; try done. by intros [[=]|[=]]. }
  destruct (make_bytes_guard B) as [[Hg Hbig]|[Hg [HB Hmax]]].
  { rewrite serve_paths, Hsize, Hbuf, Hopen, Hg.
    cbn [fst snd events trace].
    rewrite opens_of_app, closes_of_app.
    assert (Hc : opens_of (closing e) = [] /\ closes_of (closing e) = [close_fails e])
      by (unfold closing; by destruct (close_fails e)).
    destruct Hc as [-> ->]. cbn.
    repeat split; try done; [by intros [[=]|[=]] | by exists (trace at_loop)]. }
  destruct (serve_events fuel e r size B Hsize Hbuf Hopen HB Hmax)
    as (evs & Hev & Htr & _).
  rewrite Htr, !opens_of_app, !closes_of_app.
  destruct (loop_events_quiet _ _ _ _ Hev) as [-> ->].
  destruct (ending_tail_quiet e (fst (serve fuel e r))) as (_ & _ & _ & _ & -> & ->).
  cbn. repeat split; try done.
  - by intros [[=]|[=]].
  - by destruct (fst (serve fuel e r)).
  - destruct (fst (serve fuel e r)) eqn:Hx; try done; cbn [ending_tail].
    + exists (trace at_loop ++ evs ++ [EvLog Info "Data sent"]).
      by rewrite <- !app_assoc.
    + exists (trace at_loop ++ evs). by rewrite <- !app_assoc.
    + exists (trace at_loop ++ evs). by rewrite <- !app_assoc.
  - by intros ->.
Qed.

(** ** Every run is either refused before the loop or goes through it *)

Lemma serve_cases fuel e r :
  let w := snd (serve fuel e r) in
  let x := fst (serve fuel e r) in
  (reads_of (trace w) = [] /\ writes_of (trace w) = [] /\ io_of (trace w) = [] /\
   body w = [] /\ (x = Aborted \/ x = Panicked) /\
   ((Info, "Data sent") ∉ logs_of (trace w)) /\
   (x = Aborted -> exists m, (Error, m) ∈ logs_of (trace w)) /\
   (forall m, (Error, m) ∈ logs_of (trace w) ->
      x = Aborted \/ close_fails e = true)) \/
  (exists size B evs,
     size_of r = Some size /\ buffer_of r = Some B /\ 0 <= B /\
     open_fails e = false /\
     loop_events B size x evs /\
     trace w = trace at_loop ++ evs ++ ending_tail e x /\
     len (body w) = total (writes_of evs)).
Proof.
  cbv zeta. destruct (size_of r) as [size|] eqn:Hsize.
  2:{ left. rewrite serve_paths, Hsize. cbn.
      repeat split; try done; [by left | not_in_list | | by left].
      intros _. eexists. by eapply (list_elem_of_lookup_2 _ 1). }
  destruct (buffer_of r) as [B|] eqn:Hbuf.
  2:{ left. rewrite serve_paths, Hsize, Hbuf. cbn.
      repeat split; try done; [by left | not_in_list | | by left].
      intros _. eexists. by eapply (list_elem_of_lookup_2 _ 2). }
  destruct (open_fails e) eqn:Hopen.
  { left. rewrite serve_paths, Hsize, Hbuf, Hopen. cbn.
    repeat split; try done; [by left | not_in_list | | by left].
    intros _. eexists. by eapply (list_elem_of_lookup_2 _ 3). }
  destruct (make_bytes_guard B) as [[Hg Hbig]|[Hg [HB Hmax]]].
  { left. rewrite serve_paths, Hsize, Hbuf, Hopen, Hg.
    unfold closing. destruct (close_fails e); cbn;
      repeat split; try done; try (by right); try not_in_list.
    intros m. not_in_list. }
  right. destruct (serve_events fuel e r size B Hsize Hbuf Hopen HB Hmax)
    as (evs & Hev & Htr & _ & Hbody).
  by exists size, B, evs.
Qed.

(** ** What the events of the loop look like *)

Lemma loop_events_io B p x evs :
  loop_events B p x evs ->
  forall i b, io_of evs !! i = Some b -> b = Nat.even i.
Proof.
  induction 1 as [p|p Hp|p got f msg Hp Hgot Hbad|p got f msg Hp Hgot Hbad
                 |p x evs Hp Hev IH]; cbn; intros i b Hi.
  - done.
  - done.
  - by destruct i as [|i]; simplify_eq/=.
  - by destruct i as [|[|i]]; simplify_eq/=.
  - destruct i as [|[|i]]; simplify_eq/=; [done | done | by apply IH].
Qed.

Lemma loop_events_pairs B p x evs :
  loop_events B p x evs ->
  (forall i c g f, writes_of evs !! i = Some (c, g, f) ->
                   reads_of evs !! i = Some (full c)) /\
  (forall i y, reads_of evs !! (S i) = Some y ->
               exists c, reads_of evs !! i = Some (full c) /\
                         writes_of evs !! i = Some (full c)).
Proof.
  induction 1 as [p|p Hp|p got f msg Hp Hgot Hbad|p got f msg Hp Hgot Hbad
                 |p x evs Hp Hev [IHw IHr]]; cbn; (split; [intros i c g f' Hi|intros i y Hi]);
    try done.
  all: destruct i as [|i]; simplify_eq/=; try done.
  - by apply (IHw i c g f').
  - by eexists.
  - by apply (IHr i y).
Qed.

Lemma loop_events_bounds B p x evs :
  loop_events B p x evs -> 0 <= B ->
  forall c g f, (c, g, f) ∈ reads_of evs ++ writes_of evs ->
    0 <= g <= c /\ c <= B /\ c <= p /\ (1 <= B -> 1 <= c).
Proof.
  induction 1 as [p|p Hp|p got f msg Hp Hgot Hbad|p got f msg Hp Hgot Hbad
                 |p x evs Hp Hev IH]; intros HB c g f' Hin; cbn in Hin.
  - by apply elem_of_nil in Hin.
  - by apply elem_of_nil in Hin.
  - apply list_elem_of_singleton in Hin as [= -> -> ->]. lia.
  - apply elem_of_cons in Hin as [[= -> -> ->]|Hin]; [lia|].
    apply list_elem_of_singleton in Hin as [= -> -> ->]. lia.
  - apply elem_of_cons in Hin as [[= -> -> ->]|Hin]; [lia|].
    apply elem_of_app in Hin as [Hin|Hin].
    + destruct (IH HB c g f') as (? & ? & ? & ?); [apply elem_of_app; by left|lia].
    + apply elem_of_cons in Hin as [[= -> -> ->]|Hin]; [lia|].
      destruct (IH HB c g f') as (? & ? & ? & ?); [apply elem_of_app; by right|lia].
Qed.

Lemma total_cons c g f xs : total ((c, g, f) :: xs) = g + total xs.
Proof. reflexivity. Qed.

Lemma loop_events_total B p x evs :
  loop_events B p x evs -> 0 <= B ->
  0 <= total (writes_of evs) <= Z.max p 0 /\
  total (writes_of evs) <= total (reads_of evs) /\
  (x = Completed -> total (writes_of evs) = Z.max p 0).
Proof.
  induction 1 as [p|p Hp|p got f msg Hp Hgot Hbad|p got f msg Hp Hgot Hbad
                 |p x evs Hp Hev IH]; intros HB.
  - cbn. repeat split; lia || discriminate.
  - cbn. repeat split; try lia.
  - cbn. repeat split; lia || discriminate.
  - cbn. repeat split; lia || discriminate.
  - destruct (IH HB) as (Hle & Hrw & Hdone).
    change (writes_of (_ :: _ :: _ :: evs))
      with (full (Z.min p B) :: writes_of evs).
    change (reads_of (_ :: _ :: _ :: evs))
      with (full (Z.min p B) :: reads_of evs).
    unfold full. rewrite !total_cons.
    repeat split; try lia. intros Hx. specialize (Hdone Hx). lia.
Qed.

Lemma loop_events_logs B p x evs :
  loop_events B p x evs ->
  (forall l m, (l, m) ∈ logs_of evs -> l = Error /\ x = Aborted) /\
  (x = Aborted -> exists m, (Error, m) ∈ logs_of evs).
Proof.
  induction 1 as [p|p Hp|p got f msg Hp Hgot Hbad|p got f msg Hp Hgot Hbad
                 |p x evs Hp Hev [IHl IHa]]; cbn; (split; [intros l m Hin|intros Hx]);
    try done.
  - by apply elem_of_nil in Hin.
  - by apply elem_of_nil in Hin.
  - by apply list_elem_of_singleton in Hin as [= -> ->].
  - exists msg. by apply list_elem_of_singleton.
  - by apply list_elem_of_singleton in Hin as [= -> ->].
  - exists msg. by apply list_elem_of_singleton.
  - by apply IHl in Hin.
  - by apply IHa.
Qed.

Lemma loop_events_failure B p x evs :
  loop_events B p x evs ->
  (forall k c g f, reads_of evs !! k = Some (c, g, f) -> bad (c, g, f) ->
     x = Aborted /\ length (reads_of evs) = S k /\ length (writes_of evs) = k /\
     exists evs0 msg, evs = evs0 ++ [EvRead c g f; EvLog Error msg]) /\
  (forall k c g f, writes_of evs !! k = Some (c, g, f) -> bad (c, g, f) ->
     x = Aborted /\ length (reads_of evs) = S k /\ length (writes_of evs) = S k /\
     exists evs0 msg,
       evs = evs0 ++ [EvRead c c false; EvWrite c g f; EvLog Error msg]).
Proof.
  induction 1 as [p|p Hp|p got f msg Hp Hgot Hbad|p got f msg Hp Hgot Hbad
                 |p x evs Hp Hev [IHr IHw]];
    (split; intros k c g f' Hk Hbad');
    try (destruct k as [|k]; simplify_eq/=; done).
  - destruct k as [|k]; simplify_eq/=.
    repeat split. by exists [EvPending p], msg.
  - destruct k as [|k]; simplify_eq/=. by destruct (not_bad_full _ Hbad').
  - destruct k as [|k]; simplify_eq/=.
    repeat split. by exists [EvPending p], msg.
  - destruct k as [|k]; simplify_eq/=; [by destruct (not_bad_full _ Hbad')|].
    destruct (IHr k c g f' Hk Hbad') as (-> & Hlr & Hlw & evs0 & msg' & ->).
    cbn. rewrite Hlr, Hlw. repeat split.
    by exists (EvPending p :: EvRead (Z.min p B) (Z.min p B) false
               :: EvWrite (Z.min p B) (Z.min p B) false :: evs0), msg'.
  - destruct k as [|k]; simplify_eq/=; [by destruct (not_bad_full _ Hbad')|].
    destruct (IHw k c g f' Hk Hbad') as (-> & Hlr & Hlw & evs0 & msg' & ->).
    cbn. rewrite Hlr, Hlw. repeat split.
    by exists (EvPending p :: EvRead (Z.min p B) (Z.min p B) false
               :: EvWrite (Z.min p B) (Z.min p B) false :: evs0), msg'.
Qed.

Lemma through_loop tr evs e x :
  tr = trace at_loop ++ evs ++ ending_tail e x ->
  reads_of tr = reads_of evs /\ writes_of tr = writes_of evs /\
  io_of tr = io_of evs /\ pendings_of tr = pendings_of evs.
Proof.
  intros ->. destruct (ending_tail_quiet e x) as (Hp & Hr & Hw & Hio & _).
  rewrite !reads_of_app, !writes_of_app, !io_of_app, !pendings_of_app,
    Hp, Hr, Hw, Hio, !app_nil_r.
  done.
Qed.

(** ** Reads and writes *)

(** X5. The calls on the byte source and on the response body alternate,
    starting with a read. Every write is given exactly the bytes of a
    read that was in full, and a further read is made only after the
    chunk before it has been written in full. *)
Theorem reads_and_writes_alternate e r fuel :
  let tr := trace (snd (serve fuel e r)) in
  (forall i b, io_of tr !! i = Some b -> b = Nat.even i) /\
  (forall i c g f, writes_of tr !! i = Some (c, g, f) ->
                   reads_of tr !! i = Some (full c)) /\
  (forall i y, reads_of tr !! (S i) = Some y ->
               exists c, reads_of tr !! i = Some (full c) /\
                         writes_of tr !! i = Some (full c)).
Proof.
  cbv zeta. destruct (serve_cases fuel e r)
    as [(Hr & Hw & Hio & _)|(size & B & evs & _ & _ & _ & _ & Hev & Htr & _)].
  { rewrite Hr, Hw, Hio. by repeat split. }
  apply through_loop in Htr as (-> & -> & -> & _).
  split; [by eapply loop_events_io|]. by eapply loop_events_pairs.
Qed.

(** X6. A read or a write never asks for more bytes than the buffer
    holds nor for more than the size of the response, never for less than
    one byte when the buffer size is at least 1, and never transfers more
    than it asks for. *)
Theorem chunks_fit_the_buffer e r fuel size B :
  size_of r = Some size -> buffer_of r = Some B ->
  Forall (fun x : Z * Z * bool =>
            let '(want, got, _) := x in
            0 <= got <= want /\ want <= B /\ want <= size /\ (1 <= B -> 1 <= want))
         (reads_of (trace (snd (serve fuel e r)))
          ++ writes_of (trace (snd (serve fuel e r)))).
Proof.
  intros Hsize Hbuf. apply Forall_forall. intros [[c g] f].
  destruct (serve_cases fuel e r)
    as [(Hr & Hw & _)|(size' & B' & evs & Hsize' & Hbuf' & HB & _ & Hev & Htr & _)].
  { rewrite Hr, Hw. by intros ?%elem_of_nil. }
  apply through_loop in Htr as (-> & -> & _). simplify_eq.
  by eapply loop_events_bounds.
Qed.

Lemma chunks_fit_the_buffer_witness :
  Forall (fun x : Z * Z * bool =>
            let '(want, got, _) := x in
            0 <= got <= want /\ want <= 2 /\ want <= 5 /\ (1 <= 2 -> 1 <= want))
         (reads_of (trace (snd (serve 6 env_short_read
            (request {[ "size" := ["5"]; "buffer" := ["2"] ]}))))
          ++ writes_of (trace (snd (serve 6 env_short_read
            (request {[ "size" := ["5"]; "buffer" := ["2"] ]}))))).
Proof.
  apply (chunks_fit_the_buffer env_short_read
           (request {[ "size" := ["5"]; "buffer" := ["2"] ]}) 6 5 2);
    reflexivity.
Defined.

(** X7. The body never holds more bytes than the resolved size (none for
    a negative size), holds exactly that many whenever the handler
    completes, and is made of the bytes that the writes accepted, which
    are never more than the bytes read. *)
Theorem body_within_size e r fuel size :
  size_of r = Some size ->
  let w := snd (serve fuel e r) in
  len (body w) <= Z.max size 0 /\
  (fst (serve fuel e r) = Completed -> len (body w) = Z.max size 0) /\
  len (body w) = total (writes_of (trace w)) /\
  total (writes_of (trace w)) <= total (reads_of (trace w)).
Proof.
  intros Hsize. cbv zeta.
  destruct (serve_cases fuel e r)
    as [(Hr & Hw & _ & Hb & Hx & _)
       |(size' & B & evs & Hsize' & _ & HB & _ & Hev & Htr & Hbody)].
  { rewrite Hr, Hw, Hb. change (len []) with 0.
    change (total []) with 0.
    split; [lia|]. split; [|split; lia].
    intros Hc. rewrite Hc in Hx. by destruct Hx. }
  apply through_loop in Htr as (-> & -> & _). simplify_eq.
  destruct (loop_events_total _ _ _ _ Hev HB) as (Hle & Hrw & Hdone).
  rewrite Hbody. split; [lia|]. split; [exact Hdone|]. split; [reflexivity | lia].
Qed.

Lemma body_within_size_witness :
  let w := snd (serve 11 env_write_error
                  (request {[ "size" := ["10"]; "buffer" := ["2"] ]})) in
  len (body w) <= Z.max 10 0 /\
  (fst (serve 11 env_write_error
          (request {[ "size" := ["10"]; "buffer" := ["2"] ]})) = Completed ->
   len (body w) = Z.max 10 0) /\
  len (body w) = total (writes_of (trace w)) /\
  total (writes_of (trace w)) <= total (reads_of (trace w)).
Proof.
  apply (body_within_size env_write_error
           (request {[ "size" := ["10"]; "buffer" := ["2"] ]}) 11 10).
  reflexivity.
Defined.

(** ** A failed write *)

(** X8. When a write of the run fails or accepts another number of bytes
    than given, it is the last call on the response body and no further
    read is made: with [k] writes before it, there were [k + 1] reads,
    all in full, and the [k] earlier writes were in full; the body holds
    the bytes of those writes and the bytes that the failed write
    accepted; the handler returns at once, the failed write being
    followed only by its log entry and by the deferred function, which
    closes the byte source. *)
Theorem write_failure_aborts e r fuel k want got failed :
  writes_of (trace (snd (serve fuel e r))) !! k = Some (want, got, failed) ->
  failed = true \/ got <> want ->
  let w := snd (serve fuel e r) in
  fst (serve fuel e r) = Aborted /\
  length (reads_of (trace w)) = S k /\
  length (writes_of (trace w)) = S k /\
  (forall i, (i < k)%nat -> exists c, writes_of (trace w) !! i = Some (full c)) /\
  (forall y, y ∈ reads_of (trace w) -> exists c, y = full c) /\
  len (body w) = total (take k (writes_of (trace w))) + got /\
  closes_of (trace w) = [close_fails e] /\
  exists tr msg,
    trace w = tr ++ [EvRead want want false; EvWrite want got failed;
                     EvLog Error msg] ++ closing e.
Proof.
  intros Hk Hbad. cbv zeta.
  destruct (serve_cases fuel e r)
    as [(_ & Hw & _)|(size & B & evs & _ & _ & HB & _ & Hev & Htr & Hbody)].
  { by rewrite Hw in Hk. }
  pose proof (through_loop _ _ _ _ Htr) as (Hr & Hw & _).
  rewrite Hw in Hk.
  destruct (loop_events_failure _ _ _ _ Hev) as [_ Hfail].
  destruct (Hfail k want got failed Hk Hbad) as (Hx & Hlr & Hlw & evs0 & msg & Hevs).
  destruct (loop_events_pairs _ _ _ _ Hev) as [Hpw Hpr].
  rewrite Hr, Hw, Hbody.
  split; [exact Hx|]. split; [exact Hlr|]. split; [exact Hlw|].
  split; [|split; [|split; [|split]]].
  - intros i Hi.
    destruct (lookup_lt_is_Some_2 (reads_of evs) (S i)) as [y Hy]; [lia|].
    destruct (Hpr i y Hy) as (c & _ & Hc). by exists c.
  - intros y [i Hi]%list_elem_of_lookup_1.
    destruct (decide (i = k)) as [->|Hne].
    + exists want. rewrite (Hpw k want got failed Hk) in Hi. by injection Hi.
    + assert (Hlt : (i < S k)%nat) by (apply lookup_lt_Some in Hi; lia).
      destruct (lookup_lt_is_Some_2 (reads_of evs) (S i)) as [y' Hy']; [lia|].
      destruct (Hpr i y' Hy') as (c & Hc & _). exists c. congruence.
  - rewrite <- (take_drop_middle _ _ _ Hk) at 1.
    rewrite total_app, total_cons.
    assert (Hdrop : drop (S k) (writes_of evs) = []) by (apply drop_ge; lia).
    rewrite Hdrop. change (total []) with 0. lia.
  - rewrite Htr, Hx, Hevs, !closes_of_app. cbn [ending_tail].
    destruct (loop_events_quiet _ _ _ _ Hev) as [_ Hcl].
    rewrite Hevs, closes_of_app in Hcl. apply app_eq_nil in Hcl as [-> _].
    unfold closing. by destruct (close_fails e).
  - exists (trace at_loop ++ evs0), msg.
    rewrite Htr, Hx, Hevs. cbn [ending_tail]. by rewrite <- !app_assoc.
Qed.

Lemma write_failure_aborts_witness :
  let r := request {[ "size" := ["10"]; "buffer" := ["2"] ]} in
  let w := snd (serve 11 env_write_error r) in
  fst (serve 11 env_write_error r) = Aborted /\
  length (reads_of (trace w)) = 3%nat /\
  length (writes_of (trace w)) = 3%nat /\
  (forall i, (i < 2)%nat -> exists c, writes_of (trace w) !! i = Some (full c)) /\
  (forall y, y ∈ reads_of (trace w) -> exists c, y = full c) /\
  len (body w) = total (take 2 (writes_of (trace w))) + 1 /\
  closes_of (trace w) = [close_fails env_write_error] /\
  exists tr msg,
    trace w = tr ++ [EvRead 2 2 false; EvWrite 2 1 true;
                     EvLog Error msg] ++ closing env_write_error.
Proof.
  apply (write_failure_aborts env_write_error
           (request {[ "size" := ["10"]; "buffer" := ["2"] ]}) 11 2 2 1 true);
    [reflexivity | by left].
Defined.

(** ** The log *)

Lemma closing_logs e :
  forall l m, (l, m) ∈ logs_of (closing e) -> l = Error /\ close_fails e = true.
Proof.
  intros l m. unfold closing. destruct (close_fails e); cbn.
  - by intros [= -> ->]%list_elem_of_singleton.
  - by intros ?%elem_of_nil.
Qed.

(** X9. The summary entry ["Data sent"] is logged exactly when the
    handler completes; a handler that returns early has logged an error;
    and an error is logged only by a handler that returns early or whose
    byte source fails to close. *)
Theorem outcome_is_logged e r fuel :
  let tr := trace (snd (serve fuel e r)) in
  let x := fst (serve fuel e r) in
  ((Info, "Data sent") ∈ logs_of tr <-> x = Completed) /\
  (x = Aborted -> exists m, (Error, m) ∈ logs_of tr) /\
  (forall m, (Error, m) ∈ logs_of tr -> x = Aborted \/ close_fails e = true).
Proof.
  cbv zeta. destruct (serve_cases fuel e r)
    as [(_ & _ & _ & _ & Hx & Hno & Herr & Honly)
       |(size & B & evs & _ & _ & HB & _ & Hev & Htr & _)].
  { split; [|split; [exact Herr | exact Honly]].
    split; [done|]. intros Hc. rewrite Hc in Hx. by destruct Hx. }
  destruct (loop_events_logs _ _ _ _ Hev) as [Hlogs Hab].
  rewrite Htr, !logs_of_app.
  assert (Hpre : forall l m, (l, m) ∈ logs_of (trace at_loop) ->
                   l = Info /\ m <> "Data sent").
  { intros l m Hin. cbn in Hin.
    repeat (apply elem_of_cons in Hin as [[= -> ->]|Hin]; [done|]).
    by apply elem_of_nil in Hin. }
  assert (Htail : forall l m, (l, m) ∈ logs_of (ending_tail e (fst (serve fuel e r))) ->
            (l = Info /\ m = "Data sent" /\ fst (serve fuel e r) = Completed) \/
            (l = Error /\ close_fails e = true)).
  { intros l m. destruct (fst (serve fuel e r)); cbn [ending_tail].
    - change (logs_of (EvLog Info "Data sent" :: closing e))
        with ((Info, "Data sent") :: logs_of (closing e)).
      intros [[= -> ->]|Hin]%elem_of_cons; [by left|].
      right. by apply closing_logs in Hin.
    - intros Hin. right. by apply closing_logs in Hin.
    - intros Hin. right. by apply closing_logs in Hin.
    - by intros ?%elem_of_nil. }
  split; [split|split].
  - intros [Hin|[Hin|Hin]%elem_of_app]%elem_of_app.
    + by destruct (Hpre _ _ Hin).
    + by destruct (Hlogs _ _ Hin).
    + by destruct (Htail _ _ Hin) as [(_ & _ & ?)|[? _]].
  - intros Hx. rewrite Hx. cbn [ending_tail].
    apply elem_of_app; right. apply elem_of_app; right.
    change (logs_of (EvLog Info "Data sent" :: closing e))
      with ((Info, "Data sent") :: logs_of (closing e)).
    by apply elem_of_cons; left.
  - intros Hx. destruct (Hab Hx) as [m Hm]. exists m.
    apply elem_of_app; right. by apply elem_of_app; left.
  - intros m [Hin|[Hin|Hin]%elem_of_app]%elem_of_app.
    + by destruct (Hpre _ _ Hin).
    + left. by destruct (Hlogs _ _ Hin).
    + right. by destruct (Htail _ _ Hin) as [([=] & _)|[_ ?]].
Qed.

(** ** What is sent is what was read *)

Lemma read_outcome_reply e k n :
  reads_in_full e -> fst (read_outcome e k n) = fst (read_reply e k n).
Proof.
  intros Hfull. destruct (Hfull k n) as [Herr Hlen].
  unfold read_outcome. destruct n as [|n].
  - destruct (fst (read_reply e k 0)); [done | discriminate].
  - destruct (read_reply e k (S n)) as [d failed]. cbn [fst] in *.
    by rewrite take_ge by lia.
Qed.

Lemma source_bytes_cons e k c cs :
  source_bytes e k (c :: cs)
  = fst (read_reply e k (Z.to_nat c)) ++ source_bytes e (S k) cs.
Proof.
  unfold source_bytes. rewrite imap_cons. cbn [concat].
  rewrite Nat.add_0_r. f_equal. f_equal. apply imap_ext.
  intros i x _. cbn. do 2 f_equal. lia.
Qed.

Lemma loop_run_body e B p buf w out :
  loop_run e B p buf w out ->
  fst out <> Div -> reads_in_full e -> writes_in_full e ->
  0 <= p -> 1 <= B ->
  body (snd out)
  = body w ++ source_bytes e (length (reads_of (trace w))) (chunk_lengths p B).
Proof.
  intros Hrun Hdiv Hreads Hwrites.
  induction Hrun as [p buf w|p buf w Hp|p buf w w' Hp Hc
                    |p buf w p' buf' w' out Hp Hc Hrun IH];
    intros Hp0 HB; cbn [fst snd] in *.
  - done.
  - assert (p = 0) as -> by lia. rewrite chunk_lengths_zero by lia.
    unfold source_bytes, body, events; cbn. by rewrite app_nil_r.
  - exfalso. inversion Hc as [data f msg Hread Hbad
                             |data got f msg Hread Hlen Hwrite Hgot Hbad|]; subst.
    + apply (read_outcome_full _ _ _ _ _ Hreads) in Hread as [-> Hlen].
      unfold len in Hbad. destruct Hbad; [discriminate | lia].
    + rewrite (write_outcome_full _ _ _ Hwrites) in Hwrite.
      injection Hwrite as <- <-. by destruct Hbad.
  - inversion Hc as [| |data buf'' Hread Hlen Hwrite Hbuf]; subst.
    rewrite IH by (done || lia).
    rewrite (chunk_lengths_step p B) by lia. rewrite source_bytes_cons.
    unfold events, sending, body, append_body; cbn [rw trace rw_body].
    rewrite !reads_of_app. cbn [reads_of]. change (omap _ [EvPending p]) with (@nil (Z * Z * bool)).
    rewrite app_nil_r in *. rewrite <- app_assoc.
    pose proof (read_outcome_reply e (length (reads_of (trace w)))
                  (Z.to_nat (Z.min p B)) Hreads) as Hrep.
    cbn [events trace] in Hread. rewrite reads_of_app in Hread.
    change (reads_of [EvPending p]) with (@nil (Z * Z * bool)) in Hread.
    rewrite app_nil_r in Hread. rewrite Hread in Hrep. cbn [fst] in Hrep.
    rewrite <- Hrep. do 2 f_equal.
    rewrite length_app. cbn. f_equal. lia.
Qed.

(** X10. When the sizes resolve to [size >= 0] and to [B >= 1] no larger
    than [make] accepts ([runtime.maxAlloc]), the byte source opens and
    every read and write succeeds in full, the body is exactly the bytes
    that the successive reads delivered, in the order of the reads. *)
Theorem body_is_what_was_read e r size B fuel :
  size_of r = Some size -> buffer_of r = Some B ->
  0 <= size -> 1 <= B <= runtime.maxAlloc ->
  open_fails e = false -> reads_in_full e -> writes_in_full e ->
  (Z.to_nat size < fuel)%nat ->
  body (snd (serve fuel e r)) = source_bytes e 0 (chunk_lengths size B).
Proof.
  intros Hsize Hbuf Hs [HB Hmax] Hopen Hreads Hwrites Hfuel.
  destruct (serve_run fuel e r size B Hsize Hbuf Hopen) as (Heq & Hrun & Hret);
    [lia | exact Hmax |].
  specialize (Hret HB Hfuel).
  pose proof (loop_run_body _ _ _ _ _ _ Hrun Hret Hreads Hwrites Hs HB) as Hb.
  rewrite Heq. unfold finish, body in Hb |- *. cbn [snd rw]. by rewrite Hb.
Qed.

Lemma env_counting_reads : reads_in_full env_counting.
Proof. intros k n. cbn. by rewrite length_replicate. Qed.

Lemma env_counting_writes : writes_in_full env_counting.
Proof. by intros k n. Qed.

Lemma body_is_what_was_read_witness :
  body (snd (serve 6 env_counting (request {[ "size" := ["5"]; "buffer" := ["2"] ]})))
  = source_bytes env_counting 0 (chunk_lengths 5 2).
Proof.
  apply (body_is_what_was_read env_counting
           (request {[ "size" := ["5"]; "buffer" := ["2"] ]}) 5 2 6);
    [reflexivity | reflexivity | lia | by vm_compute | reflexivity
    | exact env_counting_reads | exact env_counting_writes | cbn; lia].
Defined.

Example counting_body :
  body (snd (serve 6 env_counting (request {[ "size" := ["5"]; "buffer" := ["2"] ]})))
  = [x00; x00; x01; x01; x02].
Proof. by vm_compute. Qed.

(** ** The value of a parameter *)

Lemma digit_range c d : strconv.digit c = Some d -> 0 <= d <= 9.
Proof.
  unfold strconv.digit.
  destruct (Z.leb_spec 48 (Z.of_N (N_of_ascii c)));
    destruct (Z.leb_spec (Z.of_N (N_of_ascii c)) 57); cbn [andb]; try discriminate.
  intros [= <-]. lia.
Qed.

Lemma digits_value_ge s : forall acc, 0 <= acc -> acc <= digits_value s acc.
Proof.
  induction s as [|c rest IH]; intros acc Hacc; cbn [digits_value]; [lia|].
  destruct (strconv.digit c) as [d|] eqn:Hd; [|lia].
  apply digit_range in Hd. specialize (IH (acc * 10 + d)). lia.
Qed.

Lemma ParseUint_digits_value s : forall n,
  strconv.all_digits s = true -> 0 <= n <= Int.max_uint64 ->
  strconv.ParseUint_digits s n =
  if digits_value s n <=? Int.max_uint64 then (digits_value s n, None)
  else (Int.max_uint64, Some strconv.ErrRange).
Proof.
  induction s as [|c rest IH]; intros n Hall Hn;
    cbn [strconv.ParseUint_digits digits_value strconv.all_digits] in *.
  { by destruct (Z.leb_spec n Int.max_uint64); [|lia]. }
  destruct (strconv.digit c) as [d|] eqn:Hd; [|discriminate].
  pose proof (digit_range _ _ Hd) as Hd9.
  pose proof (digits_value_ge rest (n * 10 + d)) as Hge.
  change strconv.cutoff with 1844674407370955162.
  unfold Int.uwrap, Int.max_uint64 in *.
  change (2 ^ 64) with 18446744073709551616 in *.
  destruct (Z.leb_spec 1844674407370955162 n) as [Hcut|Hcut].
  { by destruct (Z.leb_spec (digits_value rest (n * 10 + d))
                   (18446744073709551616 - 1)); [lia|]. }
  rewrite (Z.mod_small (n * 10)) by lia.
  destruct (Z.le_gt_cases (n * 10 + d) (18446744073709551616 - 1)) as [Hfit|Hover].
  - rewrite (Z.mod_small (n * 10 + d)) by lia.
    destruct (Z.ltb_spec (n * 10 + d) (n * 10)); [lia|].
    destruct (Z.ltb_spec (18446744073709551616 - 1) (n * 10 + d)); [lia|].
    cbn [orb]. apply IH; [exact Hall | lia].
  - replace (n * 10 + d)
      with (n * 10 + d - 18446744073709551616 + 1 * 18446744073709551616) at 1 by lia.
    rewrite Z.mod_add, Z.mod_small by lia.
    destruct (Z.ltb_spec (n * 10 + d - 18446744073709551616) (n * 10)); [|lia].
    cbn [orb].
    by destruct (Z.leb_spec (digits_value rest (n * 10 + d))
                   (18446744073709551616 - 1)); [lia|].
Qed.

Lemma ParseUint_value s :
  strconv.unsigned_decimal s = true ->
  strconv.ParseUint s =
  if digits_value s 0 <=? Int.max_uint64 then (digits_value s 0, None)
  else (Int.max_uint64, Some strconv.ErrRange).
Proof.
  destruct s as [|c rest]; [discriminate|].
  unfold strconv.unsigned_decimal, strconv.ParseUint. intros Hall.
  apply ParseUint_digits_value; [exact Hall | unfold Int.max_uint64; lia].
Qed.

Lemma ParseInt_signed neg un :
  0 <= un ->
  (if negb neg && (2 ^ 63 <=? un) then (2 ^ 63 - 1, Some strconv.ErrRange)
   else if neg && (2 ^ 63 <? un) then (- 2 ^ 63, Some strconv.ErrRange)
   else (if neg then Int.wrap (- Int.wrap un) else Int.wrap un, None)) =
  let v := if neg then - un else un in
  if (Int.min_int64 <=? v) && (v <=? Int.max_int64) then (v, None)
  else (if neg then - 2 ^ 63 else 2 ^ 63 - 1, Some strconv.ErrRange).
Proof.
  intros Hun. cbv zeta. unfold Int.min_int64, Int.max_int64.
  change (2 ^ 63) with 9223372036854775808.
  destruct neg; cbn [negb andb].
  all: repeat match goal with
         | |- context [Z.leb ?a ?b] => destruct (Z.leb_spec a b)
         | |- context [Z.ltb ?a ?b] => destruct (Z.ltb_spec a b)
         end; cbn [andb]; try lia; try reflexivity.
  - f_equal.
    destruct (Z.eq_dec un 9223372036854775808) as [->|Hne]; [reflexivity|].
    rewrite (Int_wrap_small un), Int_wrap_small;
      unfold Int.in_range, Int.min_int64, Int.max_int64; lia.
  - f_equal. apply Int_wrap_small.
    unfold Int.in_range, Int.min_int64, Int.max_int64. lia.
Qed.

Lemma ParseInt_after_ParseUint neg s1 :
  strconv.unsigned_decimal s1 = true ->
  (let '(un, err) := strconv.ParseUint s1 in
   match err with
   | Some strconv.ErrSyntax => (0, Some strconv.ErrSyntax)
   | _ =>
       let cutoff := 2 ^ 63 in
       if negb neg && (cutoff <=? un) then (cutoff - 1, Some strconv.ErrRange)
       else if neg && (cutoff <? un) then (- cutoff, Some strconv.ErrRange)
       else let n := Int.wrap un in (if neg then Int.wrap (- n) else n, None)
   end) =
  let v := if neg then - digits_value s1 0 else digits_value s1 0 in
  if (Int.min_int64 <=? v) && (v <=? Int.max_int64) then (v, None)
  else (if neg then - 2 ^ 63 else 2 ^ 63 - 1, Some strconv.ErrRange).
Proof.
  intros Hdec. rewrite (ParseUint_value s1 Hdec).
  pose proof (digits_value_ge s1 0 (Z.le_refl 0)) as Hge.
  destruct (Z.leb_spec (digits_value s1 0) Int.max_uint64) as [Hfit|Hover].
  { cbv zeta. by rewrite (ParseInt_signed neg _ Hge). }
  cbv zeta. unfold Int.max_uint64, Int.min_int64, Int.max_int64 in *.
  change (2 ^ 63) with 9223372036854775808 in *.
  change (2 ^ 64) with 18446744073709551616 in *.
  destruct neg; cbn [negb andb].
  all: repeat match goal with
         | |- context [Z.leb ?a ?b] => destruct (Z.leb_spec a b)
         | |- context [Z.ltb ?a ?b] => destruct (Z.ltb_spec a b)
         end; cbn [andb]; try lia; try reflexivity.
Qed.

Lemma ParseInt_value s :
  strconv.decimal_integer s = true ->
  if (Int.min_int64 <=? integer_value s) && (integer_value s <=? Int.max_int64)
  then strconv.ParseInt s = (integer_value s, None)
  else exists v, strconv.ParseInt s = (v, Some strconv.ErrRange).
Proof.
  destruct s as [|c0 rest]; [discriminate|].
  unfold strconv.decimal_integer, strconv.ParseInt, integer_value.
  destruct (Ascii.eqb_spec c0 "+") as [->|Hplus]; cbn [orb];
    [|destruct (Ascii.eqb_spec c0 "-") as [->|Hminus]; cbn [orb]];
    intros Hdec.
  - pose proof (ParseInt_after_ParseUint false rest Hdec) as H. cbv zeta in H.
    destruct (_ && _); [exact H | by eexists].
  - pose proof (ParseInt_after_ParseUint true rest Hdec) as H. cbv zeta in H.
    destruct (_ && _); [exact H | by eexists].
  - pose proof (ParseInt_after_ParseUint false _ Hdec) as H. cbv zeta in H.
    destruct (_ && _); [exact H | by eexists].
Qed.

(** X11. How a query parameter resolves, in terms of its text alone: an
    empty text (an absent parameter, or one with an empty value) gives
    the default; a text that is a base-10 integer (an optional sign and
    decimal digits, leading zeros allowed) within the range of [int64]
    gives that integer; any other text, an integer outside that range
    included, ends the request with status 400 and one error entry in the
    log. *)
Theorem resolve_by_text r key d what w :
  resolve r key d what w =
  let text := Values_Get (Query r) key in
  if String.eqb text EmptyString then (Val d, w)
  else if decimal_int64 text then (Val (integer_value text), w)
  else (Ret, mkWorld (commit StatusBadRequest (rw w))
                     (trace w ++ [EvLog Error what])).
Proof.
  rewrite resolve_param. unfold param, decimal_int64. cbv zeta.
  destruct (String.eqb _ _); [reflexivity|].
  destruct (strconv.decimal_integer _) eqn:Hdec; cbn [andb].
  - pose proof (ParseInt_value _ Hdec) as Hvalue.
    destruct (_ && _) eqn:Hrange.
    + rewrite Hvalue. unfold int_of_int64. rewrite Int_wrap_small; [reflexivity|].
      apply andb_true_iff in Hrange as [?%Z.leb_le ?%Z.leb_le]. by split.
    + destruct Hvalue as [v ->]. reflexivity.
  - destruct (strconv.ParseInt _) as [v [err|]] eqn:Hparse; [reflexivity|].
    apply ParseInt_inv in Hparse as [_ Hparse]. congruence.
Qed.

Example resolve_samples :
  let q := request {[ "a" := ["+007"]; "b" := ["-0"];
                      "c" := ["9223372036854775807"];
                      "d" := ["9223372036854775808"];
                      "e" := ["-9223372036854775808"];
                      "f" := ["12 "]; "g" := ["0x10"]; "h" := [EmptyString] ]} in
  param q "a" 1 = Some 7 /\ param q "b" 1 = Some 0 /\
  param q "c" 1 = Some 9223372036854775807 /\ param q "d" 1 = None /\
  param q "e" 1 = Some (-9223372036854775808) /\
  param q "f" 1 = None /\ param q "g" 1 = None /\
  param q "h" 1 = Some 1 /\ param q "i" 1 = Some 1.
Proof. by vm_compute. Qed.

(** ** The default sizes *)

(** X12. A request that gives neither a size nor a buffer size (the
    parameters are absent or empty) is served with the defaults: when
    the byte source opens and every read and write succeeds in full, the
    body has 1073741824 bytes and is written in 32768 chunks of 32768
    bytes each. *)
Theorem defaults_when_omitted e r fuel :
  Values_Get (Query r) "size" = EmptyString ->
  Values_Get (Query r) "buffer" = EmptyString ->
  open_fails e = false -> reads_in_full e -> writes_in_full e ->
  (Z.to_nat 1073741824 < fuel)%nat ->
  fst (serve fuel e r) = Completed /\
  len (body (snd (serve fuel e r))) = 1073741824 /\
  writes_of (trace (snd (serve fuel e r)))
  = replicate (Z.to_nat 32768) (full 32768).
Proof.
  intros Hsize Hbuf Hopen Hreads Hwrites Hfuel.
  assert (Hs : size_of r = Some 1073741824)
    by (unfold size_of, param; by rewrite Hsize).
  assert (Hb : buffer_of r = Some 32768)
    by (unfold buffer_of, param; by rewrite Hbuf).
  destruct (serve_in_full e r 1073741824 32768 fuel)
    as (w & evs & Heq & Htr & _ & Hws & _ & _ & Hbody); try assumption;
    try (rewrite ?maxAlloc_value; lia).
  rewrite Heq. cbn [fst snd]. split; [reflexivity|]. split; [exact Hbody|].
  rewrite Htr, !writes_of_app, Hws.
  destruct (tail_events_quiet e (Val (0, []))) as (_ & _ & Hqw & _).
  cbn [tail_events] in Hqw. rewrite Hqw.
  change (writes_of (trace at_loop)) with (@nil (Z * Z * bool)).
  rewrite app_nil_r. cbn [app]. unfold chunk_lengths.
  change (1073741824 / 32768) with 32768.
  change (1073741824 mod 32768 =? 0) with true. cbv iota.
  by rewrite app_nil_r, fmap_replicate.
Qed.

Lemma defaults_when_omitted_witness :
  fst (serve (Z.to_nat 1073741825) env_ok (request ∅)) = Completed /\
  len (body (snd (serve (Z.to_nat 1073741825) env_ok (request ∅)))) = 1073741824 /\
  writes_of (trace (snd (serve (Z.to_nat 1073741825) env_ok (request ∅))))
  = replicate (Z.to_nat 32768) (full 32768).
Proof.
  apply (defaults_when_omitted env_ok (request ∅) (Z.to_nat 1073741825));
    [reflexivity | reflexivity | reflexivity
    | exact env_ok_reads | exact env_ok_writes | lia].
Defined.

(** ** The work done for a request *)

Lemma loop_events_chunks B p x evs :
  loop_events B p x evs -> 1 <= B ->
  (length (reads_of evs) <= length (chunk_lengths (Z.max p 0) B))%nat /\
  (length (writes_of evs) <= length (reads_of evs))%nat /\
  (x = Completed ->
   reads_of evs = full <$> chunk_lengths (Z.max p 0) B /\
   writes_of evs = full <$> chunk_lengths (Z.max p 0) B).
Proof.
  induction 1 as [p|p Hp|p got f msg Hp Hgot Hbad|p got f msg Hp Hgot Hbad
                 |p x evs Hp Hev IH]; intros HB.
  - cbn. split; [lia|]. split; [lia | discriminate].
  - rewrite Z.max_r, chunk_lengths_zero by lia. by cbn.
  - rewrite Z.max_l, chunk_lengths_step by lia. cbn.
    split; [lia|]. split; [lia | discriminate].
  - rewrite Z.max_l, chunk_lengths_step by lia. cbn.
    split; [lia|]. split; [lia | discriminate].
  - destruct (IH HB) as (Hlen & Hwr & Hdone).
    rewrite (Z.max_l (p - Z.min p B)) in * by lia.
    rewrite (Z.max_l p), chunk_lengths_step by lia.
    change (reads_of (_ :: _ :: _ :: evs)) with (full (Z.min p B) :: reads_of evs).
    change (writes_of (_ :: _ :: _ :: evs)) with (full (Z.min p B) :: writes_of evs).
    cbn [length fmap list_fmap].
    split; [lia|]. split; [lia|]. intros Hx.
    by destruct (Hdone Hx) as [-> ->].
Qed.

(** X13. With a buffer size of at least 1 the handler makes at most
    [ceil (size / B)] reads, and never more writes than reads, whatever
    the byte source and the connection answer. And whenever it
    completes, the reads and the writes were exactly the chunks of the
    transfer, each in full: no completion is reported for a transfer that
    lost a chunk. *)
Theorem work_is_bounded e r fuel size B :
  size_of r = Some size -> buffer_of r = Some B -> 1 <= B ->
  let tr := trace (snd (serve fuel e r)) in
  Z.of_nat (length (reads_of tr)) <= (Z.max size 0 + B - 1) / B /\
  (length (writes_of tr) <= length (reads_of tr))%nat /\
  (fst (serve fuel e r) = Completed ->
   reads_of tr = full <$> chunk_lengths (Z.max size 0) B /\
   writes_of tr = full <$> chunk_lengths (Z.max size 0) B).
Proof.
  intros Hsize Hbuf HB. cbv zeta.
  destruct (serve_cases fuel e r)
    as [(Hr & Hw & _ & _ & Hx & _)
       |(size' & B' & evs & Hsize' & Hbuf' & _ & _ & Hev & Htr & _)].
  { rewrite Hr, Hw. cbn [length]. split; [apply Z.div_pos; lia|]. split; [lia|].
    intros Hc. rewrite Hc in Hx. by destruct Hx. }
  apply through_loop in Htr as (-> & -> & _). simplify_eq.
  destruct (loop_events_chunks _ _ _ _ Hev HB) as (Hlen & Hwr & Hdone).
  rewrite <- chunk_lengths_count by lia. split; [lia|]. by split.
Qed.

Lemma work_is_bounded_witness :
  let tr := trace (snd (serve 11 env_read_error
                          (request {[ "size" := ["10"]; "buffer" := ["2"] ]}))) in
  Z.of_nat (length (reads_of tr)) <= (Z.max 10 0 + 2 - 1) / 2 /\
  (length (writes_of tr) <= length (reads_of tr))%nat /\
  (fst (serve 11 env_read_error
          (request {[ "size" := ["10"]; "buffer" := ["2"] ]})) = Completed ->
   reads_of tr = full <$> chunk_lengths (Z.max 10 0) 2 /\
   writes_of tr = full <$> chunk_lengths (Z.max 10 0) 2).
Proof.
  apply (work_is_bounded env_read_error
           (request {[ "size" := ["10"]; "buffer" := ["2"] ]}) 11 10 2);
    [reflexivity | reflexivity | lia].
Defined.

(** * Properties of [main] *)

Example main_serves :
  main join_clean "CRT" "KEY" sys_ok =
  (Serving,
   [SysMkdirTemp EmptyString ".tls" "/tmp/.tls1" false;
    SysWriteFile "/tmp/.tls1/tls.crt" "CRT" 384 false;
    SysWriteFile "/tmp/.tls1/tls.key" "KEY" 384 false;
    SysLog JSONLogger Info "Ready to listen and serve";
    SysListenAndServeTLS ":8443" "/tmp/.tls1/tls.crt" "/tmp/.tls1/tls.key"]).
Proof. reflexivity. Qed.

Example main_without_key :
  main join_clean "CRT" "KEY" sys_no_key =
  (Exited 1,
   [SysMkdirTemp EmptyString ".tls" "/tmp/.tls1" false;
    SysWriteFile "/tmp/.tls1/tls.crt" "CRT" 384 false;
    SysWriteFile "/tmp/.tls1/tls.key" "KEY" 384 true;
    SysLog JSONLogger Error "Failed to create TLS key file";
    SysExit 1]).
Proof. reflexivity. Qed.

(** X14. [main] ends with [os.Exit(1)] exactly when making the temporary
    directory or writing one of the two files fails, and with no other
    exit code. The failed call is then the last one: it is followed only
    by an error entry on the JSON logger and by the exit, so no later
    file is written and the listener is never started. *)
Theorem startup_failure_exits (J : string -> string -> string) (crt key : string)
  (o : sys_env) :
  let x := fst (main J crt key o) in
  let tr := snd (main J crt key o) in
  (x = Exited 1 <-> startup_ok o = false) /\
  (forall code, x = Exited code -> code = 1) /\
  (startup_ok o = false ->
   (forall i a c k, tr !! i <> Some (SysListenAndServeTLS a c k)) /\
   exists tr0 call m,
     tr = tr0 ++ [call; SysLog JSONLogger Error m; SysExit 1] /\
     call_failed call = true /\
     Forall (fun c => call_failed c = false) tr0) /\
  (startup_ok o = true ->
   Forall (fun c => call_failed c = false /\ forall code, c <> SysExit code) tr).
Proof.
  cbv zeta. main_cases o.
  1-3: split; [done|]; split; [by intros code [= <-]|]; split; [|done]; intros _;
       split; [by intros [|[|[|[|[|i]]]]] a c k|].
  - eexists [], (SysMkdirTemp _ _ _ true), _.
    split; [reflexivity|]. split; [reflexivity|]. constructor.
  - eexists [_], (SysWriteFile _ _ _ true), _.
    split; [reflexivity|]. split; [reflexivity|]. by repeat constructor.
  - eexists [_; _], (SysWriteFile _ _ _ true), _.
    split; [reflexivity|]. split; [reflexivity|]. by repeat constructor.
  - split; [done|]. split; [done|]. split; [done|]. intros _. by repeat constructor.
  - split; [done|]. split; [done|]. split; [done|]. intros _. by repeat constructor.
  - split; [done|]. split; [done|]. split; [done|]. intros _. by repeat constructor.
Qed.

(** X15. The listener is started only once the temporary directory and
    both files have been made, in that order, the certificate with the
    text of [tlsCrt] and the key with the text of [tlsKey], both with
    permissions [0o600]; it listens on [":8443"] with exactly those two
    files of that directory. *)
Theorem listener_gets_the_written_files (J : string -> string -> string)
  (crt key : string) (o : sys_env) i addr certFile keyFile :
  snd (main J crt key o) !! i = Some (SysListenAndServeTLS addr certFile keyFile) ->
  addr = ":8443" /\
  certFile = J (fst (mkdir_temp o)) "tls.crt" /\
  keyFile = J (fst (mkdir_temp o)) "tls.key" /\
  take i (snd (main J crt key o)) =
    [SysMkdirTemp EmptyString ".tls" (fst (mkdir_temp o)) false;
     SysWriteFile certFile crt 384 false;
     SysWriteFile keyFile key 384 false;
     SysLog JSONLogger Info "Ready to listen and serve"].
Proof.
  main_cases o; intros Hi.
  1-3: by destruct i as [|[|[|[|[|i]]]]].
  all: destruct i as [|[|[|[|[|[|i]]]]]]; try discriminate;
    by injection Hi as <- <- <-.
Qed.

Lemma listener_gets_the_written_files_witness :
  ":8443" = ":8443" /\
  "/tmp/.tls1/tls.crt" = join_clean (fst (mkdir_temp sys_no_bind)) "tls.crt" /\
  "/tmp/.tls1/tls.key" = join_clean (fst (mkdir_temp sys_no_bind)) "tls.key" /\
  take 4 (snd (main join_clean "CRT" "KEY" sys_no_bind)) =
    [SysMkdirTemp EmptyString ".tls" (fst (mkdir_temp sys_no_bind)) false;
     SysWriteFile "/tmp/.tls1/tls.crt" "CRT" 384 false;
     SysWriteFile "/tmp/.tls1/tls.key" "KEY" 384 false;
     SysLog JSONLogger Info "Ready to listen and serve"].
Proof.
  apply (listener_gets_the_written_files join_clean "CRT" "KEY" sys_no_bind 4
           ":8443" "/tmp/.tls1/tls.crt" "/tmp/.tls1/tls.key").
  reflexivity.
Defined.

(** X16. When the startup succeeds, [main] either serves for ever or
    returns because the listener returned; it then never calls
    [os.Exit]. A listener that returns an error (it cannot bind, say) is
    reported by one error entry on the default logger, not on the JSON
    logger, and that entry is the last thing [main] does: unlike a
    startup failure, a listener failure does not make the process exit
    with code 1. *)
Theorem listener_failure_is_only_logged (J : string -> string -> string)
  (crt key : string) (o : sys_env) :
  let x := fst (main J crt key o) in
  let tr := snd (main J crt key o) in
  (x = Serving <-> startup_ok o = true /\ listen_returns o = None) /\
  (x = Returned <-> startup_ok o = true /\ is_Some (listen_returns o)) /\
  (x = Returned ->
   (forall i code, tr !! i <> Some (SysExit code)) /\
   (forall i m, tr !! i <> Some (SysLog JSONLogger Error m)) /\
   last tr = Some (if listen_returns o is Some true
                   then SysLog DefaultLogger Error "Failed to listen and serve"
                   else SysListenAndServeTLS ":8443"
                          (J (fst (mkdir_temp o)) "tls.crt")
                          (J (fst (mkdir_temp o)) "tls.key"))).
Proof.
  cbv zeta. main_cases o.
  1-3: by repeat split; try done; intros [? ?].
  - split; [by split; [|intros [_ [=]]]|]. split; [by split; [|eexists]|].
    intros _. repeat split; by intros [|[|[|[|[|[|[|i]]]]]]].
  - split; [by split; [|intros [_ [=]]]|]. split; [by split; [|eexists]|].
    intros _. repeat split; by intros [|[|[|[|[|[|[|i]]]]]]].
  - split; [by split|]. split; [|done].
    split; [done|]. by intros [_ [? [=]]].
Qed.
